(** * Prospector client orchestration: a shallow embedding

    The development follows [prospector/client/cli/prospector_client.py]:
    the twin short-circuit, tag interval resolution, candidate window
    construction, cache reconciliation against the remote store, the local
    preprocessing loop with its overload watchdog, persistence and tag
    aggregation.

    External collaborators (advisory construction, the repository object,
    filtering, normalisation, rule application, ranking, the HTTP layer and
    the clock) are kept abstract in a record [World]; every call to one of
    them is logged in a trace of [event]s, and may raise. *)

From Stdlib Require Import QArith.
From stdpp Require Import base option list gmap strings pretty.

Local Open Scope string_scope.
Local Open Scope Z_scope.
Local Open Scope list_scope.

(** ** Module-level constants (lines 32-39) *)

Definition SECS_PER_DAY : Z := 86400.
Definition TIME_LIMIT_BEFORE : Z := 60 * SECS_PER_DAY.
Definition TIME_LIMIT_AFTER : Z := 60 * SECS_PER_DAY.
Definition THREE_YEARS : Z := 3 * 365 * SECS_PER_DAY.
Definition ONE_YEAR : Z := 365 * SECS_PER_DAY.
Definition MAX_CANDIDATES : Z := 2000.
Definition DEFAULT_BACKEND : string := "http://localhost:8000".

(** ** Python dictionaries

    A [dict] keeps its keys in insertion order; the order is observable
    (batching of the store lookups iterates over [keys]), so a dictionary is
    an association list.  Keys of a well-formed dictionary are pairwise
    distinct ([dict_wf]). *)

Abbreviation dict V := (list (string * V)).

Definition dict_keys {V} (d : dict V) : list string := d.*1.
Definition dict_values {V} (d : dict V) : list V := d.*2.
Definition dict_wf {V} (d : dict V) : Prop := NoDup (dict_keys d).

(** [d[k]]: [None] stands for [KeyError]. *)
Fixpoint dict_get {V} (d : dict V) (k : string) : option V :=
  match d with
  | [] => None
  | (k', v) :: d' => if decide (k' = k) then Some v else dict_get d' k
  end.

(** [d[k] = v]: an existing key keeps its position, a new key goes last. *)
Fixpoint dict_set {V} (d : dict V) (k : string) (v : V) : dict V :=
  match d with
  | [] => [(k, v)]
  | (k', v') :: d' =>
      if decide (k' = k) then (k, v) :: d' else (k', v') :: dict_set d' k v
  end.

(** [d1 | d2]: a copy of [d1] updated with the items of [d2] in order. *)
Definition dict_union {V} (d1 d2 : dict V) : dict V :=
  foldl (λ d kv, dict_set d kv.1 kv.2) d1 d2.

(** ** Exceptions and results of fallible calls

    Both constructors are subclasses of Python's [Exception]:
    [ConnectionError] is [requests.exceptions.ConnectionError], [Error]
    any other one. *)

Inductive exn : Type :=
  | ConnectionError
  | Error (msg : string).

Inductive res (A : Type) : Type :=
  | Val (a : A)
  | Exc (e : exn).
Arguments Val {A} a.
Arguments Exc {A} e.

Section Model.

Context {RawCommit Features Json : Type}.

(** ** Data model *)

(** [Commit]: the fields the orchestrator touches; everything else
    (normalised features, score) is in [features].  A twin entry is the
    two-element list [[tag, commit_id]]. *)
Record Commit : Type := mkCommit {
  commit_id : string;
  features : Features;
  tags : list string;
  twins : list (string * string)
}.

Definition set_tags (c : Commit) (ts : list string) : Commit :=
  mkCommit (commit_id c) (features c) ts (twins c).
Definition set_twins (c : Commit) (tw : list (string * string)) : Commit :=
  mkCommit (commit_id c) (features c) (tags c) tw.

(** Modelled from the spec: [Commit.has_tag(tag)] of [datamodel/commit.py],
    which lies outside the module embedded here; the spec reads it as "the
    commit's tag set contains the tag". *)
Definition has_tag (c : Commit) (tag : string) : bool :=
  bool_decide (tag ∈ tags c).

Record AdvisoryRecord : Type := mkAdvisory {
  cve_id : string;
  published_timestamp : Z;
  description : string;
  keywords : gset string;
  files : gset string;
  fixing_commit : list string;        (* what [get_fixing_commit()] returns *)
  files_extension : list string;
  has_fixing_commit : bool
}.

Definition set_has_fixing_commit (a : AdvisoryRecord) (b : bool) : AdvisoryRecord :=
  mkAdvisory (cve_id a) (published_timestamp a) (description a) (keywords a)
    (files a) (fixing_commit a) (files_extension a) b.

(** An HTTP response: the status code and the decoded JSON body. *)
Record Response : Type := mkResponse {
  status_code : Z;
  json : list Json
}.

(** The repository object [Git(url, cache)] with the methods used here. *)
Record Git : Type := mkGit {
  clone : res unit;
  get_tags : res (list string);
  find_commits_for_twin_lookups : string → res (dict RawCommit);
  create_commits :
    option Z → option Z → string → string → list string → res (dict RawCommit)
}.

(** Everything the module imports and calls. [elapsed k] is the value of
    [time.time() - s_pre_time] read in the [k]-th iteration of the
    preprocessing loop: a float, hence a rational number (Python compares
    floats with integers exactly). *)
Record World : Type := mkWorld {
  build_advisory_record :
    string → string → string → bool → bool → string →
    gset string → gset string → res AdvisoryRecord;
  new_Git : string → string → Git;
  get_possible_tags : list string → string → res (string * string);
  filter_commits : dict RawCommit → res (dict RawCommit * nat);
  make_from_raw_commit : RawCommit → bool → res Commit;
  apply_rules : list Commit → AdvisoryRecord → list string → res (list Commit);
  apply_ranking : list Commit → res (list Commit);
  requests_get : string → res Response;
  requests_post : string → list Json → res Response;
  parse_obj : Json → Commit;
  to_dict : Commit → Json;
  json_commit_id : Json → string;     (* [rc["commit_id"]] *)
  get_tag : Commit → string;          (* [Commit.get_tag()] *)
  elapsed : nat → Q
}.

(** ** Traces *)

Inductive event : Type :=
  | EvBuildAdvisory (vulnerability_id : string)
  | EvClone
  | EvGetTags
  | EvTwinLookup (commit_id : string)
  | EvFilterCommits (commits : dict RawCommit)
  | EvMakeFromRawCommit (raw : RawCommit) (simplify : bool)
  | EvApplyRules (commits : list Commit) (rules : list string)
  | EvApplyRanking
  | EvGetPossibleTags (version_interval : string)
  | EvCreateCommits (since until : option Z) (next_tag prev_tag : string)
  | EvGet (url : string)
  | EvPost (url : string) (payload : list Json).

(** A computation logs the external calls it makes and ends with a value
    or an uncaught exception. *)
Definition M (A : Type) : Type := list event * res A.

Definition ret {A} (a : A) : M A := ([], Val a).

Definition bind {A B} (m : M A) (f : A → M B) : M B :=
  match m with
  | (t, Val a) => let '(t', r) := f a in (t ++ t', r)
  | (t, Exc e) => (t, Exc e)
  end.

(** An external call: log it, then take the collaborator's answer. *)
Definition call {A} (ev : event) (r : res A) : M A := ([ev], r).

(** [try: m except <class> as e: h e], the class given by [catches] *)
Definition try_except {A} (m : M A) (catches : exn → bool) (h : exn → M A) : M A :=
  match m with
  | (t, Val a) => (t, Val a)
  | (t, Exc e) =>
      if catches e then let '(t', r) := h e in (t ++ t', r) else (t, Exc e)
  end.

Definition is_Exception (e : exn) : bool := true.
Definition is_ConnectionError (e : exn) : bool :=
  match e with ConnectionError => true | Error _ => false end.

#[global] Instance M_ret : MRet M := @ret.
#[global] Instance M_bind : MBind M := λ A B f m, bind m f.

Definition raise {A} (e : exn) : M A := ([], Exc e).

(** [for x in l: s = body s x] *)
Fixpoint for_each {A S} (l : list A) (body : S → A → M S) (s : S) : M S :=
  match l with
  | [] => mret s
  | x :: l' => s' ← body s x; for_each l' body s'
  end.

Definition trace {A} (m : M A) : list event := m.1.
Definition result {A} (m : M A) : res A := m.2.

(** [only P m]: every event of [m] satisfies [P]. *)
Definition only {A} (P : event → Prop) (m : M A) : Prop := Forall P (trace m).

(** ** Parameters of the entry point (lines 85-105) *)

Record Params : Type := mkParams {
  vulnerability_id : string;
  repository_url : string;
  publication_date : string;
  vuln_descr : string;
  version_interval : string;
  modified_files : gset string;
  advisory_keywords : gset string;
  time_limit_before : Z;
  time_limit_after : Z;
  use_nvd : bool;
  nvd_rest_endpoint : string;
  fetch_references : bool;
  backend_address : string;
  use_backend : string;
  git_cache : string;
  limit_candidates : Z;
  ignore_adv_refs : bool;
  rules : list string;
  silent : bool
}.

(** The keyword defaults of [prospector]. *)
Definition default_params (vulnerability_id repository_url : string) : Params :=
  {| vulnerability_id := vulnerability_id;
     repository_url := repository_url;
     publication_date := "";
     vuln_descr := "";
     version_interval := "";
     modified_files := ∅;
     advisory_keywords := ∅;
     time_limit_before := - THREE_YEARS;
     time_limit_after := ONE_YEAR;
     use_nvd := true;
     nvd_rest_endpoint := "";
     fetch_references := true;
     backend_address := DEFAULT_BACKEND;
     use_backend := "always";
     git_cache := "/tmp/git_cache";
     limit_candidates := MAX_CANDIDATES;
     ignore_adv_refs := false;
     rules := ["ALL"];
     silent := false |}.

(** What a run hands back: the ranked commits with the advisory, a
    sentinel pair [(None, n)], or the process exit of [sys.exit(code)]. *)
Inductive outcome : Type :=
  | Ranked (commits : list Commit) (advisory : AdvisoryRecord)
  | Sentinel (n : Z)
  | Exited (code : Z).

Section WithWorld.

Context (w : World).

(** ** [evaluate_commits] (lines 292-299) *)
Definition evaluate_commits (commits : list Commit) (advisory : AdvisoryRecord)
    (rules : list string) : M (list Commit) :=
  scored ← call (EvApplyRules commits rules) (apply_rules w commits advisory rules);
  call EvApplyRanking (apply_ranking w scored).

(** ** [filter] (lines 284-289); renamed, [filter] being the list filter *)
Definition filter_ (commits : dict RawCommit) : M (dict RawCommit) :=
  '(commits, rejected) ← call (EvFilterCommits commits) (filter_commits w commits);
  mret commits.

(** ** [prospector_find_twins] (lines 45-80)

    [set(commit_ids)] is iterated in the order of [elements]. *)
Definition prospector_find_twins (advisory_record : AdvisoryRecord)
    (repository : Git) (commit_ids : list string)
    : M (list Commit * AdvisoryRecord) :=
  commits ← for_each (elements (list_to_set commit_ids : gset string))
    (λ commits commit_id,
       found ← call (EvTwinLookup commit_id)
                    (find_commits_for_twin_lookups repository commit_id);
       mret (dict_union commits found))
    [];
  '(commits, _) ← call (EvFilterCommits commits) (filter_commits w commits);
  preprocessed_commits ← for_each (dict_values commits)
    (λ acc raw_commit,
       c ← call (EvMakeFromRawCommit raw_commit true)
                (make_from_raw_commit w raw_commit true);
       mret (acc ++ [c]))
    [];
  ranked_candidates ← evaluate_commits preprocessed_commits advisory_record ["ALL"];
  mret (take 100 ranked_candidates, advisory_record).

(** ** [tag_and_aggregate_commits] (lines 302-323) *)

(** The dict comprehension of line 306: a later commit with the same id
    overrides an earlier one. *)
Definition twin_tags_map (commits : list Commit) : gmap string string :=
  foldl (λ m commit, <[commit_id commit := get_tag w commit]> m) ∅ commits.

(** [twin[0] = twin_tags_map.get(twin[1], "no-tag")] *)
Definition retag_twin (m : gmap string string) (twin : string * string)
    : string * string :=
  (default "no-tag" (m !! twin.2), twin.2).

Fixpoint aggregate_loop (m : gmap string string) (next_tag : string)
    (commits tagged_commits : list Commit) : list Commit :=
  match commits with
  | [] => tagged_commits
  | commit :: rest =>
      if has_tag commit next_tag then
        let commit := set_tags commit [next_tag] in
        let commit := set_twins commit (retag_twin m <$> twins commit) in
        aggregate_loop m next_tag rest (tagged_commits ++ [commit])
      else aggregate_loop m next_tag rest tagged_commits
  end.

(** [next_tag] may be [None]. *)
Definition tag_and_aggregate_commits (commits : list Commit)
    (next_tag : option string) : list Commit :=
  match next_tag with
  | None => commits
  | Some next_tag =>
      if decide (next_tag = "") then commits
      else aggregate_loop (twin_tags_map commits) next_tag commits []
  end.

(** ** [retrieve_preprocessed_commits] (lines 326-360) *)

(** [range(0, n, 500)] *)
Definition batch_starts (n : nat) : list nat :=
  (λ j, 500 * j)%nat <$> seq 0 ((n + 499) / 500).

Definition get_url (backend_address repository_url : string)
    (args : list string) : string :=
  backend_address +:+ "/commits/" +:+ repository_url +:+ "?commit_id="
    +:+ String.concat "," args.

(** The lookup loop of lines 333-341; a status other than 200 breaks it. *)
Fixpoint fetch_batches (repository_url backend_address : string)
    (keys : list string) (starts : list nat) (responses : list (list Json))
    : M (list (list Json)) :=
  match starts with
  | [] => mret responses
  | i :: rest =>
      let args := take 500 (drop i keys) in
      let url := get_url backend_address repository_url args in
      r ← call (EvGet url) (requests_get w url);
      if bool_decide (status_code r ≠ 200) then mret responses
      else fetch_batches repository_url backend_address keys rest
             (responses ++ [json r])
  end.

Definition returned_ids (retrieved_commits : list Json) : list string :=
  json_commit_id w <$> retrieved_commits.

(** [set(candidates.keys()).difference(rc["commit_id"] for rc in ...)],
    iterated in the order of [elements]. *)
Definition missing_ids (candidates : dict RawCommit)
    (retrieved_commits : list Json) : list string :=
  elements ((list_to_set (dict_keys candidates) : gset string)
              ∖ list_to_set (returned_ids retrieved_commits)).

Definition retrieve_preprocessed_commits (repository_url backend_address : string)
    (candidates : dict RawCommit) : M (list RawCommit * list Commit) :=
  responses ← fetch_batches repository_url backend_address
                (dict_keys candidates) (batch_starts (length candidates)) [];
  let retrieved_commits := concat responses in
  missing ←
    (if bool_decide (length retrieved_commits ≠ length candidates) then
       match mapM (dict_get candidates) (missing_ids candidates retrieved_commits) with
       | Some missing => mret missing
       | None => raise (Error "KeyError")
       end
     else mret []);
  let commits := parse_obj w <$> retrieved_commits in
  mret (missing, commits).

(** ** [save_preprocessed_commits] (lines 363-386) *)
Definition save_preprocessed_commits (backend_address : string)
    (payload : list Json) : M unit :=
  try_except
    (r ← call (EvPost (backend_address +:+ "/commits/") payload)
              (requests_post w (backend_address +:+ "/commits/") payload);
     mret ())
    is_ConnectionError
    (λ _, mret ()).

(** ** [get_commits] (lines 410-444) *)
Definition get_commits (advisory_record : AdvisoryRecord) (repository : Git)
    (prev_tag next_tag : string) (time_limit_before time_limit_after : Z)
    : M (dict RawCommit) :=
  let '(since, until) :=
    if bool_decide (published_timestamp advisory_record ≠ 0)
       && bool_decide (next_tag = "") && bool_decide (prev_tag = "")
    then (Some (published_timestamp advisory_record - time_limit_before),
          Some (published_timestamp advisory_record + time_limit_after))
    else (None, None) in
  call (EvCreateCommits since until next_tag prev_tag)
       (create_commits repository since until next_tag prev_tag
          (files_extension advisory_record)).

(** ** [prospector] (lines 85-264) *)

(** Lines 116-139: the advisory record, the repository object, its clone
    and its tags. *)
Definition repository_of (p : Params) : Git :=
  new_Git w (repository_url p) (git_cache p).

Definition prelude (p : Params) : M (AdvisoryRecord * list string) :=
  advisory_record ←
    call (EvBuildAdvisory (vulnerability_id p))
         (build_advisory_record w (vulnerability_id p) (vuln_descr p)
            (nvd_rest_endpoint p) (fetch_references p) (use_nvd p)
            (publication_date p) (advisory_keywords p) (modified_files p));
  _ ← call EvClone (clone (repository_of p));
  tags ← call EvGetTags (get_tags (repository_of p));
  mret (advisory_record, tags).

(** The list comprehension of line 148. *)
Definition supplied (fixing_commit : list string) (commits : list Commit)
    : list Commit :=
  filter (λ c, commit_id c ∈ fixing_commit) commits.

(** [any(l)] on a list of [Commit] objects: objects are true, so the test
    is that the list is not empty. *)
Definition any_object {A} (l : list A) : bool :=
  match l with [] => false | _ :: _ => true end.

(** Lines 141-156: [Some] is the early [return] of line 151, [None] the
    fall-through. *)
Definition twin_short_circuit (p : Params) (advisory_record : AdvisoryRecord)
    : M (option (list Commit * AdvisoryRecord)) :=
  let fixing_commit := fixing_commit advisory_record in
  if bool_decide (0 < length fixing_commit)%nat && negb (ignore_adv_refs p) then
    try_except
      ('(commits, advisory) ←
         prospector_find_twins advisory_record (repository_of p) fixing_commit;
       if bool_decide (0 < length commits)%nat
          && any_object (supplied fixing_commit commits)
       then mret (Some (commits, set_has_fixing_commit advisory true))
       else mret None)
      is_Exception
      (λ _, mret None)
  else mret None.

(** [e_pre_time > count * 2] *)
Definition exceeds (e_pre_time : Q) (count : nat) : bool :=
  negb (Qle_bool e_pre_time (inject_Z (Z.of_nat count * 2))).

(** The watchdog test of lines 234-242. *)
Definition overloaded (count n_candidates : nat) : bool :=
  bool_decide (count mod 100 = 0)%nat
  && exceeds (elapsed w count) count
  && bool_decide (1000 < n_candidates)%nat.

(** Modelled from the spec: the [Counter] of [stats/execution.py], which
    lies outside the module embedded here, as the running count of
    processed commits: [initialize] sets it to 0, [increment] adds one, and
    [counter.__dict__["collection"]["preprocessed commits"][0]] reads it. *)
Definition counter_initialize : nat := 0.
Definition counter_increment (count : nat) : nat := S count.

(** The loop of lines 230-244; [inl] is the early [return] of line 244.
    [make_from_raw_commit(raw_commit)] is the full feature extraction
    ([simplify] off). *)
Fixpoint preprocess_loop (n_candidates : nat) (missing : list RawCommit)
    (count : nat) (preprocessed_commits : list Commit)
    : M (outcome + list Commit) :=
  match missing with
  | [] => mret (inr preprocessed_commits)
  | raw_commit :: rest =>
      let count := counter_increment count in
      c ← call (EvMakeFromRawCommit raw_commit false)
               (make_from_raw_commit w raw_commit false);
      let preprocessed_commits := preprocessed_commits ++ [c] in
      if overloaded count n_candidates
      then mret (inl (Sentinel (Z.of_nat n_candidates)))
      else preprocess_loop n_candidates rest count preprocessed_commits
  end.

(** Lines 198-217: query the store unless the mode is "never"; [inl] is
    the [sys.exit(0)] of line 212; without an answer everything is
    missing. *)
Definition reconcile (p : Params) (candidates : dict RawCommit)
    : M (outcome + list RawCommit * list Commit) :=
  if bool_decide (use_backend p ≠ "never") then
    try_except
      (r ← retrieve_preprocessed_commits (repository_url p) (backend_address p)
             candidates;
       mret (inr r))
      is_ConnectionError
      (λ _, if bool_decide (use_backend p = "always")
            then mret (inl (Exited 0))
            else mret (inr (dict_values candidates, [])))
  else mret (inr (dict_values candidates, [])).

(** Lines 219-247 *)
Definition local_preprocessing (candidates : dict RawCommit)
    (missing : list RawCommit) (preprocessed_commits : list Commit)
    : M (outcome + list Commit) :=
  if bool_decide (0 < length missing)%nat
  then preprocess_loop (length candidates) missing counter_initialize
         preprocessed_commits
  else mret (inr preprocessed_commits).

(** Lines 251-256 *)
Definition persist (p : Params) (missing : list RawCommit)
    (payload : list Json) : M unit :=
  if bool_decide (0 < length payload)%nat
     && bool_decide (use_backend p ≠ "never")
     && bool_decide (0 < length missing)%nat
  then save_preprocessed_commits (backend_address p) payload
  else mret ().

(** Lines 251-264: persistence, ranking and tag aggregation. *)
Definition persist_and_rank (p : Params) (advisory_record : AdvisoryRecord)
    (missing : list RawCommit) (preprocessed_commits : list Commit)
    (next_tag : string) : M outcome :=
  let payload := to_dict w <$> preprocessed_commits in
  _ ← persist p missing payload;
  ranked_candidates ←
    evaluate_commits preprocessed_commits advisory_record (rules p);
  let ranked_candidates :=
    tag_and_aggregate_commits ranked_candidates (Some next_tag) in
  mret (Ranked ranked_candidates advisory_record).

(** Lines 194-264: from the accepted candidates to the result. *)
Definition preprocess_and_rank (p : Params) (advisory_record : AdvisoryRecord)
    (candidates : dict RawCommit) (next_tag : string) : M outcome :=
  r ← reconcile p candidates;
  match r with
  | inl o => mret o
  | inr (missing, preprocessed_commits) =>
      r ← local_preprocessing candidates missing preprocessed_commits;
      match r with
      | inl o => mret o
      | inr preprocessed_commits =>
          persist_and_rank p advisory_record missing preprocessed_commits
            next_tag
      end
  end.

(** Lines 174-192 *)
Definition select_candidates (p : Params) (advisory_record : AdvisoryRecord)
    (prev_tag next_tag : string) : M (outcome + dict RawCommit) :=
  candidates ← get_commits advisory_record (repository_of p) prev_tag next_tag
                 (time_limit_before p) (time_limit_after p);
  candidates ← filter_ candidates;
  if bool_decide (limit_candidates p < Z.of_nat (length candidates))
  then mret (inl (Sentinel (Z.of_nat (length candidates))))
  else mret (inr candidates).

(** Lines 158-264: what runs when the twin short-circuit has not returned. *)
Definition full_pipeline (p : Params) (advisory_record : AdvisoryRecord)
    (tags : list string) : M outcome :=
  if bool_decide (version_interval p ≠ "")
     && bool_decide (0 < String.length (version_interval p))%nat
  then
    '(prev_tag, next_tag) ←
      call (EvGetPossibleTags (version_interval p))
           (get_possible_tags w tags (version_interval p));
    if bool_decide (prev_tag = "") && bool_decide (next_tag = "")
    then mret (Sentinel (-1))
    else
      r ← select_candidates p advisory_record prev_tag next_tag;
      match r with
      | inl o => mret o
      | inr candidates =>
          preprocess_and_rank p advisory_record candidates next_tag
      end
  else mret (Sentinel (-1)).

Definition prospector (p : Params) : M outcome :=
  '(advisory_record, tags) ← prelude p;
  short ← twin_short_circuit p advisory_record;
  match short with
  | Some (commits, advisory) => mret (Ranked commits advisory)
  | None => full_pipeline p advisory_record tags
  end.

(** ** Reference definitions in the words of the specification

    They are compared with the code above in the theorems below. *)

(** The tag the twin lookup gives for a commit id: the tag of the input
    commit with that id (the last one, should several share it), and
    "no-tag" when no input commit has it. *)
Definition lookup_tag (commits : list Commit) (id : string) : string :=
  match last (filter (λ c, commit_id c = id) commits) with
  | Some c => get_tag w c
  | None => "no-tag"
  end.

(** A survivor of tag aggregation: its tag list is the singleton
    [[next_tag]] and each twin entry carries the looked-up tag. *)
Definition aggregated (commits : list Commit) (next_tag : string) (c : Commit)
    : Commit :=
  mkCommit (commit_id c) (features c) [next_tag]
    ((λ twin, (lookup_tag commits twin.2, twin.2)) <$> twins c).

(** Classes of events named by the specification. *)
Definition is_tag_resolution (e : event) : bool :=
  match e with EvGetPossibleTags _ => true | _ => false end.
Definition is_candidate_scan (e : event) : bool :=
  match e with EvCreateCommits _ _ _ _ => true | _ => false end.
Definition is_store_read (e : event) : bool :=
  match e with EvGet _ => true | _ => false end.
Definition is_store_write (e : event) : bool :=
  match e with EvPost _ _ => true | _ => false end.
Definition is_preprocessing (e : event) : bool :=
  match e with EvMakeFromRawCommit _ _ => true | _ => false end.
Definition is_local_preprocessing (e : event) : bool :=
  match e with EvMakeFromRawCommit _ false => true | _ => false end.
Definition is_ranking (e : event) : bool :=
  match e with EvApplyRules _ _ | EvApplyRanking => true | _ => false end.

(** The calls made before the full pipeline starts: advisory construction,
    cloning, tag listing and the twin path (twin lookups, filtering,
    simplified normalisation, rule application and ranking). *)
Definition before_pipeline (e : event) : bool :=
  match e with
  | EvBuildAdvisory _ | EvClone | EvGetTags | EvTwinLookup _
  | EvFilterCommits _ | EvMakeFromRawCommit _ true
  | EvApplyRules _ _ | EvApplyRanking => true
  | _ => false
  end.

(** The events of normalising the first [k] missing commits in full. *)
Definition normalised (k : nat) (missing : list RawCommit) : list event :=
  (λ raw, EvMakeFromRawCommit raw false) <$> take k missing.

(** The payloads written to the store, in order. *)
Definition posted (t : list event) : list (list Json) :=
  omap (λ e, match e with EvPost _ payload => Some payload | _ => None end) t.

(** ** [preprocess_commits] (lines 267-281)

    The helper the entry point no longer calls.  [now k] is the value of
    [time.time()] read in the [k]-th iteration; the test of line 278 guards
    a [pass].  The [timer] argument only names the statistics collection. *)
Definition preprocess_commits (now : nat → Q) (commits : list RawCommit)
    : M (list Commit) :=
  r ← for_each commits
    (λ '(count, preprocessed_commits) raw_commit,
       let count := counter_increment count in
       let counter_val := count in
       let _ :=
         if bool_decide (counter_val mod 100 = 0)%nat
            && negb (Qle_bool (inject_Z (Z.of_nat counter_val * 2)) (now count))
         then () else () in
       c ← call (EvMakeFromRawCommit raw_commit false)
                (make_from_raw_commit w raw_commit false);
       mret (count, preprocessed_commits ++ [c]))
    (counter_initialize, []);
  mret r.2.

(** ** Further reference definitions *)

(** The slices [keys[i : i + 500]] of line 334, in order. *)
Definition id_batches (keys : list string) : list (list string) :=
  (λ i, take 500 (drop i keys)) <$> batch_starts (length keys).

(** The records a lookup URL is answered with; none unless the answer is a
    response. *)
Definition answer_body (url : string) : list Json :=
  match requests_get w url with
  | Val r => json r
  | Exc _ => []
  end.

(** A lookup that comes back with status 200. *)
Definition answered (url : string) : Prop :=
  ∃ r, requests_get w url = Val r ∧ status_code r = 200.

(** The ids the twin lookups of a trace were made for, in order. *)
Definition twin_lookups (t : list event) : list string :=
  omap (λ e, match e with EvTwinLookup id => Some id | _ => None end) t.

(** The windows [(since, until)] of the candidate scans of a trace. *)
Definition scan_windows (t : list event) : list (option Z * option Z) :=
  omap (λ e, match e with
             | EvCreateCommits since until _ _ => Some (since, until)
             | _ => None
             end) t.

Definition is_twin_lookup (e : event) : bool :=
  match e with EvTwinLookup _ => true | _ => false end.
Definition is_simplified_preprocessing (e : event) : bool :=
  match e with EvMakeFromRawCommit _ true => true | _ => false end.

(** The calls of the full pipeline before its last stage. *)
Definition is_selection (e : event) : bool :=
  match e with
  | EvGetPossibleTags _ | EvCreateCommits _ _ _ _ | EvFilterCommits _ => true
  | _ => false
  end.

(** The calls of lines 116-139, and those of the twin path. *)
Definition is_setup (e : event) : bool :=
  match e with EvBuildAdvisory _ | EvClone | EvGetTags => true | _ => false end.
Definition is_twin_path (e : event) : bool :=
  match e with
  | EvTwinLookup _ | EvFilterCommits _ | EvMakeFromRawCommit _ true
  | EvApplyRules _ _ | EvApplyRanking => true
  | _ => false
  end.

End WithWorld.

End Model.

Arguments Commit : clear implicits.
Arguments Response : clear implicits.
Arguments Git : clear implicits.
Arguments World : clear implicits.
Arguments event : clear implicits.
Arguments outcome : clear implicits.
Arguments M : clear implicits.

(** * Concrete repositories, stores and advisories

    Raw commits and store records are represented by their commit id, a
    commit has no features beyond it. *)

Module Fixtures.

Definition advisory (published : Z) (fixing : list string) : AdvisoryRecord :=
  mkAdvisory "CVE-2020-0001" published "" ∅ ∅ fixing [] false.

(** An advisory without and one with a referenced fixing commit. *)
Definition adv0 : AdvisoryRecord := advisory 1600000000 [].
Definition adv1 : AdvisoryRecord := advisory 1600000000 ["abc123"].

Definition commit (id : string) (tags : list string)
    (twins : list (string * string)) : Commit unit :=
  mkCommit id () tags twins.

Definition all_tags : list string := ["v0.9"; "v1.0"; "v1.1"].

Definition repository (candidates : dict string)
    (twin_lookup : string → res (dict string)) : Git string :=
  mkGit (Val ()) (Val all_tags) twin_lookup
    (λ _ _ _ _ _, Val candidates).

(** A world in which filtering keeps everything, normalisation and the
    rules succeed and leave the order alone, and the store accepts every
    write. *)
Definition world (adv : AdvisoryRecord) (repo : Git string)
    (tag_pair : string * string) (store : string → res (Response string))
    (clock : nat → Q) : World string unit string :=
  mkWorld
    (λ _ _ _ _ _ _ _ _, Val adv)
    (λ _ _, repo)
    (λ _ _, Val tag_pair)
    (λ commits, Val (commits, 0%nat))
    (λ raw _, Val (commit raw [] []))
    (λ commits _ _, Val commits)
    (λ commits, Val commits)
    store
    (λ _ _, Val (mkResponse 200 []))
    (λ record, commit record [] [])
    commit_id
    id
    (λ c, default "no-tag" (head (tags c)))
    clock.

(** The calls of the prelude, and the lookup of the candidates a, b, c. *)
Definition setup : list (event string unit string) :=
  [EvBuildAdvisory "CVE-2020-0001"; EvClone; EvGetTags].
Definition lookup_abc : string :=
  "http://localhost:8000/commits/https://example.org/repo?commit_id=a,b,c".

Definition answers (records : list string) : string → res (Response string) :=
  λ _, Val (mkResponse 200 records).

Definition numbered (n : nat) : dict string :=
  (λ i, (pretty i, pretty i)) <$> seq 0 n.

Definition params (interval mode : string) : Params :=
  let p := default_params "CVE-2020-0001" "https://example.org/repo" in
  mkParams (vulnerability_id p) (repository_url p) (publication_date p)
    (vuln_descr p) interval (modified_files p) (advisory_keywords p)
    (time_limit_before p) (time_limit_after p) (use_nvd p)
    (nvd_rest_endpoint p) (fetch_references p) (backend_address p) mode
    (git_cache p) (limit_candidates p) (ignore_adv_refs p) (rules p) (silent p).

(** Candidates a, b and c, of which the store holds a and c. *)
Definition abc : dict string := [("a", "a"); ("b", "b"); ("c", "c")].
Definition cache_world : World string unit string :=
  world adv0 (repository abc (λ _, Val []))
    ("v1.0", "v1.1") (answers ["a"; "c"]) (λ _, 0%Q).

(** The same candidates, all of them held by the store. *)
Definition warm_world : World string unit string :=
  world adv0 (repository abc (λ _, Val []))
    ("v1.0", "v1.1") (answers ["a"; "b"; "c"]) (λ _, 0%Q).


(** 1001 candidates and a clock that reads 201 seconds at every sample. *)
Definition slow_world : World string unit string :=
  world adv0 (repository (numbered 1001) (λ _, Val []))
    ("v1.0", "v1.1") (answers []) (λ _, 201%Q).

(** 2001 candidates. *)
Definition large_world : World string unit string :=
  world adv0 (repository (numbered 2001) (λ _, Val []))
    ("v1.0", "v1.1") (answers []) (λ _, 0%Q).

(** An interval no bound of which resolves. *)
Definition untagged_world : World string unit string :=
  world adv0 (repository abc (λ _, Val []))
    ("", "") (answers []) (λ _, 0%Q).

(** The advisory names abc123, whose twin lookup finds abc123 and def456. *)
Definition twin_world : World string unit string :=
  world adv1
    (repository abc (λ _, Val [("abc123", "abc123"); ("def456", "def456")]))
    ("v1.0", "v1.1") (answers []) (λ _, 0%Q).

(** The advisory names abc123, and the twin lookup fails. *)
Definition broken_twin_world : World string unit string :=
  world adv1
    (repository abc (λ _, Exc (Error "unreachable")))
    ("v1.0", "v1.1") (answers ["a"; "c"]) (λ _, 0%Q).

(** A store that cannot be reached, and one that answers 404. *)
Definition unreachable : string → res (Response string) :=
  λ _, Exc ConnectionError.
Definition unreachable_world : World string unit string :=
  world adv0 (repository abc (λ _, Val [])) ("v1.0", "v1.1") unreachable
    (λ _, 0%Q).
Definition cold_world : World string unit string :=
  world adv0 (repository abc (λ _, Val [])) ("v1.0", "v1.1")
    (λ _, Val (mkResponse 404 [])) (λ _, 0%Q).

(** The [n]-th slice of 500 ids, and its lookup URL. *)
Definition slice (n : nat) (candidates : dict string) : list string :=
  take 500 (drop (500 * n) (dict_keys candidates)).
Definition lookup_of (ids : list string) : string :=
  get_url DEFAULT_BACKEND "https://example.org/repo" ids.

(** 1001 candidates and a store that answers the first lookup only. *)
Definition flaky : string → res (Response string) :=
  λ url, if decide (url = lookup_of (slice 0 (numbered 1001)))
         then Val (mkResponse 200 ["0"])
         else Val (mkResponse 503 []).
Definition flaky_world : World string unit string :=
  world adv0 (repository (numbered 1001) (λ _, Val [])) ("v1.0", "v1.1") flaky
    (λ _, 0%Q).

(** Parameters with the advisory references ignored, or another ceiling. *)
Definition ignoring (p : Params) : Params :=
  mkParams (vulnerability_id p) (repository_url p) (publication_date p)
    (vuln_descr p) (version_interval p) (modified_files p) (advisory_keywords p)
    (time_limit_before p) (time_limit_after p) (use_nvd p)
    (nvd_rest_endpoint p) (fetch_references p) (backend_address p)
    (use_backend p) (git_cache p) (limit_candidates p) true (rules p) (silent p).
Definition limited (limit : Z) (p : Params) : Params :=
  mkParams (vulnerability_id p) (repository_url p) (publication_date p)
    (vuln_descr p) (version_interval p) (modified_files p) (advisory_keywords p)
    (time_limit_before p) (time_limit_after p) (use_nvd p)
    (nvd_rest_endpoint p) (fetch_references p) (backend_address p)
    (use_backend p) (git_cache p) limit (ignore_adv_refs p) (rules p) (silent p).

(** Two lookups that share the key b. *)
Definition first_found : dict string := [("a", "a1"); ("b", "b1")].
Definition then_found : dict string := [("b", "b2"); ("c", "c2")].

End Fixtures.

(** * Properties *)

Section Properties.

Context {RawCommit Features Json : Type}.

Local Abbreviation World := (World RawCommit Features Json).
Local Abbreviation event := (event RawCommit Features Json).
Local Abbreviation Commit := (Commit Features).
Local Abbreviation outcome := (outcome Features).
Local Abbreviation M := (M RawCommit Features Json).

Implicit Types (w : World) (p : Params) (t : list event).

(** ** The trace monad *)

Lemma bind_Val {A B} (m : M A) (f : A → M B) t a :
  m = (t, Val a) → m ≫= f = (t ++ (f a).1, (f a).2).
Proof. intros ->. unfold mbind, M_bind, bind. by destruct (f a). Qed.

Lemma bind_Exc {A B} (m : M A) (f : A → M B) t e :
  m = (t, Exc e) → m ≫= f = (t, Exc e).
Proof. by intros ->. Qed.

Lemma bind_inv {A B} (m : M A) (f : A → M B) t r :
  m ≫= f = (t, r) →
  (∃ t1 a t2, m = (t1, Val a) ∧ f a = (t2, r) ∧ t = t1 ++ t2)
  ∨ (∃ e, m = (t, Exc e) ∧ r = Exc e).
Proof.
  destruct m as [t1 [a|e]]; unfold mbind, M_bind, bind.
  - destruct (f a) as [t2 r2] eqn:Hf. intros [= <- <-]. left. by exists t1, a, t2.
  - intros [= <- <-]. right. by exists e.
Qed.

Lemma only_ret {A} (P : event → Prop) (a : A) : only P (mret a : M A).
Proof. constructor. Qed.

Lemma only_call {A} (P : event → Prop) ev (r : res A) : P ev → only P (call ev r).
Proof. intros. by repeat constructor. Qed.

Lemma only_bind {A B} (P : event → Prop) (m : M A) (f : A → M B) :
  only P m → (∀ a, only P (f a)) → only P (m ≫= f).
Proof.
  unfold only, trace, mbind, M_bind, bind. intros Hm Hf.
  destruct m as [t1 [a|e]]; [|done].
  specialize (Hf a). destruct (f a). simpl in *. by apply Forall_app.
Qed.

Lemma only_try_except {A} (P : event → Prop) (m : M A) catches h :
  only P m → (∀ e, only P (h e)) → only P (try_except m catches h).
Proof.
  unfold only, trace, try_except. intros Hm Hh.
  destruct m as [t1 [a|e]]; [done|].
  destruct (catches e); [|done].
  specialize (Hh e). destruct (h e). simpl in *. by apply Forall_app.
Qed.

Lemma only_for_each {A S} (P : event → Prop) (l : list A) (body : S → A → M S) s :
  (∀ s x, only P (body s x)) → only P (for_each l body s).
Proof.
  intros Hb. revert s. induction l as [|x l IH]; intros s; cbn [for_each].
  - apply only_ret.
  - apply only_bind; [apply Hb | intros; apply IH].
Qed.

(** ** Tag aggregation *)

Lemma twin_tags_map_lookup w (commits : list Commit) (m0 : gmap string string) id :
  foldl (λ m commit, <[commit_id commit := get_tag w commit]> m) m0 commits !! id
  = match last (filter (λ c, commit_id c = id) commits) with
    | Some c => Some (get_tag w c)
    | None => m0 !! id
    end.
Proof.
  revert m0. induction commits as [|c cs IH]; intros m0; [done|].
  simpl. rewrite IH, filter_cons. case_decide as Hid.
  - rewrite last_cons. destruct (last _); [done|].
    by rewrite Hid, lookup_insert_eq.
  - destruct (last _); [done|]. by rewrite lookup_insert_ne.
Qed.

Lemma retag_twin_lookup w (commits : list Commit) twin :
  retag_twin (twin_tags_map w commits) twin = (lookup_tag w commits twin.2, twin.2).
Proof.
  unfold retag_twin, twin_tags_map, lookup_tag.
  rewrite twin_tags_map_lookup, lookup_empty. by destruct (last _).
Qed.

Lemma aggregate_loop_spec m next_tag (commits tagged : list Commit) :
  aggregate_loop m next_tag commits tagged
  = tagged ++ ((λ c, set_twins (set_tags c [next_tag]) (retag_twin m <$> twins c))
                 <$> filter (λ c, next_tag ∈ tags c) commits).
Proof.
  revert tagged. induction commits as [|c cs IH]; intros tagged; simpl.
  - by rewrite app_nil_r.
  - rewrite filter_cons. unfold has_tag. case_bool_decide; case_decide; try done.
    by rewrite IH, <-app_assoc.
Qed.

(** C9: with a non-empty [next_tag], tag aggregation keeps exactly the
    commits whose tags contain [next_tag], in their order; each survivor's
    tag list becomes the singleton [[next_tag]] and each of its twin entries
    gets the tag the lookup over all input commits (with their original
    tags) gives for the twin's id, "no-tag" when no input commit has that
    id.  With an absent or empty [next_tag] the input comes back unchanged. *)
Theorem tag_and_aggregate_commits_spec w (commits : list Commit) (next_tag : string) :
  next_tag ≠ "" →
  tag_and_aggregate_commits w commits (Some next_tag)
    = aggregated w commits next_tag <$> filter (λ c, next_tag ∈ tags c) commits
  ∧ tag_and_aggregate_commits w commits None = commits
  ∧ tag_and_aggregate_commits w commits (Some "") = commits.
Proof.
  intros Hne. split; [|done].
  unfold tag_and_aggregate_commits. case_decide; [done|].
  rewrite aggregate_loop_spec. simpl.
  apply list_fmap_ext. intros _ c _.
  unfold aggregated, set_twins, set_tags. simpl. f_equal.
  apply list_fmap_ext. intros _ twin _. apply retag_twin_lookup.
Qed.

(** ** Cache reconciliation *)

Lemma dict_get_is_Some {V} (d : dict V) k :
  k ∈ dict_keys d → is_Some (dict_get d k).
Proof.
  unfold dict_keys. induction d as [|[k' v] d IH]; simpl.
  - by intros ?%elem_of_nil.
  - intros [->|Hin]%elem_of_cons; case_decide; simplify_eq/=; by eauto.
Qed.

Lemma elem_of_missing_ids w (candidates : dict RawCommit) retrieved k :
  k ∈ missing_ids w candidates retrieved
  ↔ k ∈ dict_keys candidates ∧ k ∉ returned_ids w retrieved.
Proof.
  unfold missing_ids.
  rewrite elem_of_elements, elem_of_difference, !elem_of_list_to_set. done.
Qed.

Lemma missing_ids_lookup w (candidates : dict RawCommit) retrieved :
  ∃ missing,
    mapM (dict_get candidates) (missing_ids w candidates retrieved) = Some missing.
Proof.
  apply (mapM_is_Some (dict_get candidates)), Forall_forall.
  intros k [Hk _]%elem_of_missing_ids. by apply dict_get_is_Some.
Qed.


Lemma fetch_batches_only_reads w repository_url backend_address keys starts responses :
  only (λ e, is_store_read e = true)
    (fetch_batches w repository_url backend_address keys starts responses).
Proof.
  revert responses. induction starts as [|i rest IH]; intros responses;
    cbn [fetch_batches].
  - apply only_ret.
  - apply only_bind; [by apply only_call|].
    intros r. case_bool_decide; [apply only_ret | apply IH].
Qed.

Lemma retrieve_only_reads w repository_url backend_address (candidates : dict RawCommit) :
  only (λ e, is_store_read e = true)
    (retrieve_preprocessed_commits w repository_url backend_address candidates).
Proof.
  unfold retrieve_preprocessed_commits.
  apply only_bind; [apply fetch_batches_only_reads|].
  intros responses. apply only_bind; [|intros; apply only_ret].
  case_bool_decide; [|apply only_ret].
  destruct (mapM _ _); [apply only_ret | constructor].
Qed.

(** What [retrieve_preprocessed_commits] returns once the lookups have
    answered with [responses]. *)
Lemma retrieve_preprocessed_commits_inv w repository_url backend_address
    (candidates : dict RawCommit) t responses :
  fetch_batches w repository_url backend_address (dict_keys candidates)
    (batch_starts (length candidates)) [] = (t, Val responses) →
  ∃ missing,
    retrieve_preprocessed_commits w repository_url backend_address candidates
      = (t, Val (missing, parse_obj w <$> concat responses))
    ∧ if bool_decide (length (concat responses) ≠ length candidates)
      then mapM (dict_get candidates) (missing_ids w candidates (concat responses))
           = Some missing
      else missing = [].
Proof.
  intros Hfetch. unfold retrieve_preprocessed_commits.
  rewrite (bind_Val _ _ _ _ Hfetch).
  case_bool_decide.
  - destruct (missing_ids_lookup w candidates (concat responses)) as [missing Hm].
    exists missing. rewrite Hm. simpl. by rewrite !app_nil_r.
  - exists []. simpl. by rewrite !app_nil_r.
Qed.


(** ** The overload watchdog *)

Lemma exceeds_spec (e : Q) (count : nat) :
  exceeds e count = true ↔ (inject_Z (Z.of_nat count * 2) < e)%Q.
Proof.
  unfold exceeds. rewrite negb_true_iff, <-not_true_iff_false, Qle_bool_iff.
  split; [apply Qnot_le_lt | apply Qlt_not_le].
Qed.

Lemma overloaded_spec w (count n_candidates : nat) :
  overloaded w count n_candidates = true
  ↔ (count mod 100 = 0)%nat
    ∧ (inject_Z (Z.of_nat count * 2) < elapsed w count)%Q
    ∧ (1000 < n_candidates)%nat.
Proof.
  unfold overloaded.
  rewrite !andb_true_iff, !bool_decide_eq_true, exceeds_spec. tauto.
Qed.

Lemma preprocess_loop_abort_inv w n (missing : list RawCommit) count acc t o :
  preprocess_loop w n missing count acc = (t, Val (inl o)) →
  o = Sentinel (Z.of_nat n)
  ∧ ∃ k, (0 < k ≤ length missing)%nat
         ∧ overloaded w (count + k) n = true
         ∧ t = normalised k missing.
Proof.
  revert count acc t. induction missing as [|raw rest IH]; intros count acc t;
    cbn [preprocess_loop]; unfold counter_increment.
  - by intros [= <- ?].
  - intros [(t1 & c & t2 & Hcall & Hrest & ->)|(e & _ & [=])]%bind_inv.
    injection Hcall as <- Hmake.
    destruct (overloaded w (S count) n) eqn:Hover.
    + injection Hrest as <- <-. split; [done|]. exists 1%nat.
      rewrite Nat.add_1_r. split_and!; simpl; try done; lia.
    + apply IH in Hrest as (-> & k & Hk & Hover' & ->). split; [done|].
      exists (S k). rewrite Nat.add_succ_r. split_and!; simpl; try done; lia.
Qed.

Lemma preprocess_loop_abort w n (missing : list RawCommit) count acc k :
  (0 < k ≤ length missing)%nat →
  overloaded w (count + k) n = true →
  Forall (λ raw, ∃ c, make_from_raw_commit w raw false = Val c) (take k missing) →
  result (preprocess_loop w n missing count acc) = Val (inl (Sentinel (Z.of_nat n))).
Proof.
  revert count acc k. induction missing as [|raw rest IH];
    intros count acc k Hk Hover Hok; cbn [preprocess_loop];
    unfold counter_increment;
    simpl in Hk; [lia|].
  destruct k as [|k]; [lia|].
  simpl in Hok. apply Forall_cons in Hok as [[c Hc] Hok].
  erewrite bind_Val; [|unfold call; by rewrite Hc]. cbn [snd fst].
  destruct (overloaded w (S count) n) eqn:Hnow; [done|].
  destruct k as [|k].
  { rewrite Nat.add_1_r in Hover. congruence. }
  unfold result in IH |- *.
  apply (IH (S count) (acc ++ [c]) (S k)); [lia| |done].
  by rewrite Nat.add_succ_r in Hover.
Qed.

Lemma preprocess_loop_complete_inv w n (missing : list RawCommit) count acc t cs :
  preprocess_loop w n missing count acc = (t, Val (inr cs)) →
  ∃ computed,
    Forall2 (λ raw c, make_from_raw_commit w raw false = Val c) missing computed
    ∧ cs = acc ++ computed
    ∧ t = normalised (length missing) missing.
Proof.
  revert count acc t. induction missing as [|raw rest IH]; intros count acc t;
    cbn [preprocess_loop]; unfold counter_increment.
  - intros [= <- <-]. exists []. by rewrite app_nil_r.
  - intros [(t1 & c & t2 & Hcall & Hrest & ->)|(e & _ & [=])]%bind_inv.
    injection Hcall as <- Hmake.
    destruct (overloaded w (S count) n); [done|].
    apply IH in Hrest as (computed & Hall & -> & ->).
    exists (c :: computed). split_and!.
    + by constructor.
    + by rewrite <-app_assoc.
    + done.
Qed.

Lemma preprocess_loop_trace w n (missing : list RawCommit) count acc :
  ∃ k, trace (preprocess_loop w n missing count acc) = normalised k missing.
Proof.
  revert count acc. induction missing as [|raw rest IH]; intros count acc;
    cbn [preprocess_loop]; unfold counter_increment.
  - by exists 0%nat.
  - unfold call, mbind, M_bind, bind.
    destruct (make_from_raw_commit w raw false) as [c|e]; [|by exists 1%nat].
    destruct (overloaded w (S count) n); [by exists 1%nat|].
    destruct (IH (S count) (acc ++ [c])) as [k Hk].
    exists (S k). destruct (preprocess_loop _ _ _ _ _). simpl in *. by rewrite Hk.
Qed.

(** ** Persistence *)

Lemma posted_app (t1 t2 : list event) : posted (t1 ++ t2) = posted t1 ++ posted t2.
Proof. apply omap_app. Qed.

Lemma posted_quiet (t : list event) :
  Forall (λ e, is_store_write e = false) t → posted t = [].
Proof.
  induction 1 as [|e t He _ IH]; [done|].
  destruct e; try done; exact IH.
Qed.

Lemma posted_normalised k (missing : list RawCommit) :
  posted (normalised k missing : list event) = [].
Proof.
  apply posted_quiet, Forall_forall. unfold normalised.
  by intros e (raw & -> & _)%list_elem_of_fmap.
Qed.

Lemma evaluate_commits_only_ranks w commits advisory rules :
  only (λ e, is_ranking e = true) (evaluate_commits w commits advisory rules).
Proof.
  unfold evaluate_commits.
  apply only_bind; [by apply only_call|]. intros. by apply only_call.
Qed.

Lemma save_preprocessed_commits_run w backend_address payload :
  trace (save_preprocessed_commits w backend_address payload)
    = [EvPost (backend_address +:+ "/commits/") payload]
  ∧ (∀ r, requests_post w (backend_address +:+ "/commits/") payload = Val r →
          result (save_preprocessed_commits w backend_address payload) = Val ())
  ∧ (requests_post w (backend_address +:+ "/commits/") payload = Exc ConnectionError →
          result (save_preprocessed_commits w backend_address payload) = Val ()).
Proof.
  unfold save_preprocessed_commits, try_except, call, mbind, M_bind, bind.
  destruct (requests_post _ _ _) as [r|[|msg]]; simpl; split_and!; try done.
Qed.

Lemma persist_trace w p (missing : list RawCommit) payload :
  trace (persist w p missing payload)
  = if bool_decide (0 < length payload)%nat
       && bool_decide (use_backend p ≠ "never")
       && bool_decide (0 < length missing)%nat
    then [EvPost (backend_address p +:+ "/commits/") payload] else [].
Proof.
  unfold persist. destruct (_ && _ && _); [|done].
  apply save_preprocessed_commits_run.
Qed.

Lemma persist_and_rank_posted w p adv (missing : list RawCommit) cs next_tag :
  posted (trace (persist_and_rank w p adv missing cs next_tag))
  = if bool_decide (0 < length cs)%nat
       && bool_decide (use_backend p ≠ "never")
       && bool_decide (0 < length missing)%nat
    then [to_dict w <$> cs] else [].
Proof.
  unfold persist_and_rank.
  pose proof (persist_trace w p missing (to_dict w <$> cs)) as Hp.
  pose proof (evaluate_commits_only_ranks w cs adv (rules p)) as He.
  rewrite length_fmap in Hp.
  unfold only, trace, mbind, M_bind, bind in *.
  destruct (persist _ _ _ _) as [tp [[]|e]]; simpl in Hp; subst tp.
  - destruct (evaluate_commits _ _ _ _) as [te [ranked|e]]; simpl in *;
      rewrite ?app_nil_r, posted_app, (posted_quiet te);
      try (eapply Forall_impl; [exact He|by intros []]);
      rewrite app_nil_r; by destruct (_ && _ && _).
  - simpl. by destruct (_ && _ && _).
Qed.

Lemma persist_and_rank_result w p adv (missing : list RawCommit) cs next_tag o :
  result (persist_and_rank w p adv missing cs next_tag) = Val o →
  ∃ ranked, o = Ranked ranked adv.
Proof.
  unfold persist_and_rank, result, mbind, M_bind, bind.
  destruct (persist _ _ _ _) as [tp [[]|e]]; [|done].
  destruct (evaluate_commits _ _ _ _) as [te [ranked|e]]; [|done].
  simpl. intros [= <-]. eauto.
Qed.

Lemma reconcile_only_reads w p (candidates : dict RawCommit) :
  only (λ e, is_store_read e = true) (reconcile w p candidates).
Proof.
  unfold reconcile. case_bool_decide; [|apply only_ret].
  apply only_try_except.
  - apply only_bind; [apply retrieve_only_reads | intros; apply only_ret].
  - intros e. case_bool_decide; apply only_ret.
Qed.

Lemma local_preprocessing_trace w (candidates : dict RawCommit) missing hits :
  ∃ k, trace (local_preprocessing w candidates missing hits) = normalised k missing.
Proof.
  unfold local_preprocessing, counter_initialize. case_bool_decide; [apply preprocess_loop_trace|].
  by exists 0%nat.
Qed.

(** How [preprocess_and_rank] continues once the store has been consulted. *)
Lemma preprocess_and_rank_run w p adv (candidates : dict RawCommit) next_tag
    t1 missing hits :
  reconcile w p candidates = (t1, Val (inr (missing, hits))) →
  preprocess_and_rank w p adv candidates next_tag
  = match local_preprocessing w candidates missing hits with
    | (t2, Val (inl o)) => (t1 ++ t2, Val o)
    | (t2, Val (inr cs)) =>
        (t1 ++ t2 ++ trace (persist_and_rank w p adv missing cs next_tag),
         result (persist_and_rank w p adv missing cs next_tag))
    | (t2, Exc e) => (t1 ++ t2, Exc e)
    end.
Proof.
  intros Hrec. unfold preprocess_and_rank.
  rewrite (bind_Val _ _ _ _ Hrec).
  destruct (local_preprocessing _ _ _ _) as [t2 [[o|cs]|e]];
    unfold mbind, M_bind, bind, trace, result; simpl.
  - by rewrite app_nil_r.
  - by destruct (persist_and_rank _ _ _ _ _ _).
  - done.
Qed.

(** C3: with the store consulted, the run ends with the sentinel
    [(None, len(candidates))] as soon as, at a processed count [k] that is a
    multiple of 100, the elapsed time read there exceeds [2 * k], provided
    there are more than 1000 candidates (and the normalisation of the first
    [k] missing commits has not raised).  Conversely that sentinel comes out
    only at such a count [k], a multiple of 100, with exactly [k] commits
    normalised, and never with 1000 candidates or fewer. *)
Theorem overload_abort w p adv (candidates : dict RawCommit) next_tag
    t1 missing hits :
  reconcile w p candidates = (t1, Val (inr (missing, hits))) →
  let run := preprocess_and_rank w p adv candidates next_tag in
  let n := length candidates in
  (∀ k, (1000 < n)%nat → (0 < k ≤ length missing)%nat → (k mod 100 = 0)%nat →
        (inject_Z (Z.of_nat k * 2) < elapsed w k)%Q →
        Forall (λ raw, ∃ c, make_from_raw_commit w raw false = Val c)
          (take k missing) →
        result run = Val (Sentinel (Z.of_nat n)))
  ∧ (∀ z, result run = Val (Sentinel z) →
        z = Z.of_nat n ∧ (1000 < n)%nat
        ∧ ∃ k, (0 < k ≤ length missing)%nat ∧ (k mod 100 = 0)%nat
               ∧ (inject_Z (Z.of_nat k * 2) < elapsed w k)%Q
               ∧ trace run = t1 ++ normalised k missing)
  ∧ ((n ≤ 1000)%nat → ∀ z, result run ≠ Val (Sentinel z)).
Proof.
  intros Hrec run n.
  assert (∀ z, result run = Val (Sentinel z) →
        z = Z.of_nat n ∧ (1000 < n)%nat
        ∧ ∃ k, (0 < k ≤ length missing)%nat ∧ (k mod 100 = 0)%nat
               ∧ (inject_Z (Z.of_nat k * 2) < elapsed w k)%Q
               ∧ trace run = t1 ++ normalised k missing) as Honly.
  { intros z. subst run. rewrite (preprocess_and_rank_run _ _ _ _ _ _ _ _ Hrec).
    destruct (local_preprocessing _ _ _ _) as [t2 [[o|cs]|e]] eqn:Hloc;
      unfold result, trace; simpl; [| |done].
    - intros [= ->]. unfold local_preprocessing, counter_initialize in Hloc.
      case_bool_decide; [|done].
      apply preprocess_loop_abort_inv in Hloc as ([= ->] & k & Hk & Hover & ->).
      apply overloaded_spec in Hover as (Hmod & Hslow & Hmany).
      split_and!; [done..|]. by exists k.
    - intros (? & [=])%persist_and_rank_result. }
  split_and!; [|done|].
  - intros k Hmany Hk Hmod Hslow Hok. subst run.
    rewrite (preprocess_and_rank_run _ _ _ _ _ _ _ _ Hrec).
    pose proof (preprocess_loop_abort w n missing 0 hits k Hk) as Habort.
    unfold local_preprocessing, counter_initialize. rewrite bool_decide_eq_true_2 by lia.
    fold n. destruct (preprocess_loop _ _ _ _ _) as [t2 r2].
    unfold result in *. simpl in Habort. rewrite Habort; [done| |done].
    apply overloaded_spec. done.
  - intros Hn z Hz. apply Honly in Hz. lia.
Qed.

Lemma preprocess_loop_complete w n (missing : list RawCommit) count acc computed :
  Forall2 (λ raw c, make_from_raw_commit w raw false = Val c) missing computed →
  (∀ k, (0 < k ≤ length missing)%nat → overloaded w (count + k) n = false) →
  preprocess_loop w n missing count acc
  = (normalised (length missing) missing, Val (inr (acc ++ computed))).
Proof.
  intros Hall. revert count acc.
  induction Hall as [|raw c rest computed Hc _ IH]; intros count acc Hcalm;
    cbn [preprocess_loop]; unfold counter_increment.
  - by rewrite app_nil_r.
  - erewrite bind_Val; [|unfold call; by rewrite Hc].
    rewrite <-(Nat.add_1_r count), (Hcalm 1%nat) by (simpl; lia).
    rewrite IH.
    + simpl. by rewrite <-app_assoc.
    + intros k Hk. rewrite <-Nat.add_assoc. apply Hcalm. simpl. lia.
Qed.

(** C1 (as amended): once the store has been consulted, every payload
    written to the store holds one record per preprocessed commit: the
    cache hits first, then the missing commits normalised locally, so its
    length is the number of hits plus the number of missing commits; at most
    one payload is written.  And when the mode is not "never", some commit
    is missing, every normalisation succeeds and the watchdog stays calm,
    that payload is written. *)
Theorem persisted_payload w p adv (candidates : dict RawCommit) next_tag
    t1 missing hits :
  reconcile w p candidates = (t1, Val (inr (missing, hits))) →
  let run := preprocess_and_rank w p adv candidates next_tag in
  (∀ payload, payload ∈ posted (trace run) →
     ∃ computed,
       Forall2 (λ raw c, make_from_raw_commit w raw false = Val c) missing computed
       ∧ payload = to_dict w <$> (hits ++ computed)
       ∧ length payload = (length hits + length missing)%nat
       ∧ posted (trace run) = [payload])
  ∧ (∀ computed,
       Forall2 (λ raw c, make_from_raw_commit w raw false = Val c) missing computed →
       use_backend p ≠ "never" → missing ≠ [] →
       (∀ k, (0 < k ≤ length missing)%nat →
             overloaded w k (length candidates) = false) →
       posted (trace run) = [to_dict w <$> (hits ++ computed)]).
Proof.
  intros Hrec run.
  assert (posted t1 = []) as Ht1.
  { pose proof (reconcile_only_reads w p candidates) as Hr.
    unfold only, trace in Hr. rewrite Hrec in Hr.
    apply posted_quiet. eapply Forall_impl; [exact Hr|]. by intros []. }
  split.
  - intros payload. subst run.
    rewrite (preprocess_and_rank_run _ _ _ _ _ _ _ _ Hrec).
    destruct (local_preprocessing_trace w candidates missing hits) as [k Hk].
    destruct (local_preprocessing _ _ _ _) as [t2 [[o|cs]|e]] eqn:Hloc;
      unfold trace in *; simpl in *; subst t2;
      rewrite !posted_app, Ht1, posted_normalised; simpl;
      try by intros ?%elem_of_nil.
    fold (trace (persist_and_rank w p adv missing cs next_tag)).
    rewrite persist_and_rank_posted.
    destruct (_ && _ && _) eqn:Hcond; [|by intros ?%elem_of_nil].
    intros ->%list_elem_of_singleton.
    rewrite !andb_true_iff, !bool_decide_eq_true in Hcond.
    unfold local_preprocessing, counter_initialize in Hloc.
    rewrite bool_decide_eq_true_2 in Hloc by tauto.
    apply preprocess_loop_complete_inv in Hloc as (computed & Hall & -> & _).
    exists computed. split_and!; try done.
    rewrite length_fmap, length_app. by apply Forall2_length in Hall as <-.
  - intros computed Hall Hmode Hsome Hcalm. subst run.
    rewrite (preprocess_and_rank_run _ _ _ _ _ _ _ _ Hrec).
    unfold local_preprocessing, counter_initialize.
    assert (0 < length missing)%nat as Hlen.
    { destruct missing; [done|simpl; lia]. }
    rewrite bool_decide_eq_true_2 by done.
    rewrite (preprocess_loop_complete _ _ _ _ _ _ Hall) by done.
    unfold trace at 1. simpl.
    rewrite !posted_app, Ht1, posted_normalised, persist_and_rank_posted. simpl.
    rewrite !bool_decide_eq_true_2; [done..|].
    rewrite length_app. apply Forall2_length in Hall. lia.
Qed.

(** Store writes happen in the last stage only. *)
Lemma preprocess_and_rank_posted w p adv (candidates : dict RawCommit) next_tag payload :
  payload ∈ posted (trace (preprocess_and_rank w p adv candidates next_tag)) →
  use_backend p ≠ "never"
  ∧ ∃ raw, EvMakeFromRawCommit raw false
             ∈ trace (preprocess_and_rank w p adv candidates next_tag).
Proof.
  pose proof (reconcile_only_reads w p candidates) as Hr.
  destruct (reconcile w p candidates) as [t1 [[o|[missing hits]]|e]] eqn:Hrec;
    unfold only, trace in Hr; simpl in Hr.
  1,3: unfold preprocess_and_rank, trace, mbind, M_bind, bind; rewrite Hrec;
    simpl; rewrite ?app_nil_r, posted_quiet;
    [by intros ?%elem_of_nil | eapply Forall_impl; [exact Hr|by intros []]].
  assert (posted t1 = []) as Ht1.
  { apply posted_quiet. eapply Forall_impl; [exact Hr|]. by intros []. }
  rewrite (preprocess_and_rank_run _ _ _ _ _ _ _ _ Hrec).
  destruct (local_preprocessing_trace w candidates missing hits) as [k Hk].
  destruct (local_preprocessing _ _ _ _) as [t2 [[o|cs]|e]] eqn:Hloc;
    unfold trace in *; simpl in *; subst t2;
    rewrite !posted_app, Ht1, posted_normalised; simpl;
    try by intros ?%elem_of_nil.
  fold (trace (persist_and_rank w p adv missing cs next_tag)).
  rewrite persist_and_rank_posted.
  destruct (_ && _ && _) eqn:Hcond; [|by intros ?%elem_of_nil].
  intros _. rewrite !andb_true_iff, !bool_decide_eq_true in Hcond.
  destruct Hcond as [[_ Hmode] Hmissing]. split; [done|].
  unfold local_preprocessing, counter_initialize in Hloc. rewrite bool_decide_eq_true_2 in Hloc by done.
  apply preprocess_loop_complete_inv in Hloc as (computed & Hall & -> & Hkk).
  destruct missing as [|raw rest]; [simpl in Hmissing; lia|].
  exists raw. rewrite Hkk. simpl. set_solver.
Qed.

(** ** The run before the full pipeline *)

Lemma prelude_only_setup w p : only (λ e, before_pipeline e = true) (prelude w p).
Proof.
  unfold prelude.
  repeat (apply only_bind; [by apply only_call|]; intros ?).
  apply only_ret.
Qed.

Lemma prospector_find_twins_only w adv repository ids :
  only (λ e, before_pipeline e = true) (prospector_find_twins w adv repository ids).
Proof.
  unfold prospector_find_twins.
  apply only_bind.
  { apply only_for_each. intros. apply only_bind; [by apply only_call|].
    intros. apply only_ret. }
  intros commits. apply only_bind; [by apply only_call|]. intros [filtered rejected].
  apply only_bind.
  { apply only_for_each. intros. apply only_bind; [by apply only_call|].
    intros. apply only_ret. }
  intros preprocessed. apply only_bind; [|intros; apply only_ret].
  eapply Forall_impl; [apply evaluate_commits_only_ranks|]. by intros [].
Qed.

Lemma twin_short_circuit_only w p adv :
  only (λ e, before_pipeline e = true) (twin_short_circuit w p adv).
Proof.
  unfold twin_short_circuit. destruct (_ && _); [|apply only_ret].
  apply only_try_except; [|intros; apply only_ret].
  apply only_bind; [apply prospector_find_twins_only|].
  intros [commits advisory]. destruct (_ && _); apply only_ret.
Qed.

Lemma any_object_supplied (fixing : list string) (commits : list Commit) :
  any_object (supplied fixing commits) = true
  ↔ ∃ c, c ∈ commits ∧ commit_id c ∈ fixing.
Proof.
  unfold supplied. split.
  - destruct (filter _ commits) as [|c l] eqn:Hf; [done|]. intros _.
    assert (c ∈ filter (λ c, commit_id c ∈ fixing) commits) as Hin
      by (rewrite Hf; set_solver).
    apply list_elem_of_filter in Hin as [Hid Hc]. eauto.
  - intros (c & Hc & Hid).
    assert (c ∈ filter (λ c, commit_id c ∈ fixing) commits) as Hin
      by by apply list_elem_of_filter.
    destruct (filter _ commits); [by inversion Hin|done].
Qed.

(** What the guarded [try] block of lines 141-156 leaves behind. *)
Lemma twin_short_circuit_attempted w p adv :
  (0 < length (fixing_commit adv))%nat → ignore_adv_refs p = false →
  twin_short_circuit w p adv
  = match prospector_find_twins w adv (repository_of w p) (fixing_commit adv) with
    | (t, Val (commits, advisory)) =>
        (t, Val (if bool_decide (0 < length commits)%nat
                    && any_object (supplied (fixing_commit adv) commits)
                 then Some (commits, set_has_fixing_commit advisory true)
                 else None))
    | (t, Exc e) => (t, Val None)
    end.
Proof.
  intros Hlen Hflag. unfold twin_short_circuit.
  rewrite bool_decide_eq_true_2, Hflag by done. simpl.
  unfold try_except, mbind, M_bind, bind.
  destruct (prospector_find_twins _ _ _ _) as [t [[commits advisory]|e]]; simpl.
  - destruct (_ && _); simpl; by rewrite app_nil_r.
  - by rewrite app_nil_r.
Qed.

Lemma twin_short_circuit_skipped w p adv :
  fixing_commit adv = [] ∨ ignore_adv_refs p = true →
  twin_short_circuit w p adv = ([], Val None).
Proof.
  unfold twin_short_circuit. intros [->| ->]; [done|].
  by rewrite andb_false_r.
Qed.

(** The twin short-circuit never raises. *)
Lemma twin_short_circuit_total w p adv :
  ∃ t o, twin_short_circuit w p adv = (t, Val o).
Proof.
  destruct (decide (0 < length (fixing_commit adv))%nat) as [Hlen|Hlen];
    [destruct (ignore_adv_refs p) eqn:Hflag|].
  - rewrite twin_short_circuit_skipped; eauto.
  - rewrite twin_short_circuit_attempted by done.
    destruct (prospector_find_twins _ _ _ _) as [t [[commits advisory]|e]]; eauto.
  - rewrite twin_short_circuit_skipped; eauto.
    left. destruct (fixing_commit adv); [done|simpl in Hlen; lia].
Qed.

Lemma for_each_quiet {A S} (P : event → Prop) (l : list A) (body : S → A → M S) s t r :
  (∀ s x, only P (body s x)) → for_each l body s = (t, r) → Forall P t.
Proof.
  intros Hb Hrun. pose proof (only_for_each P l body s Hb) as Ho.
  unfold only, trace in Ho. by rewrite Hrun in Ho.
Qed.

(** A successful twin lookup returns the advisory it was given and at most
    100 commits, and its last two calls are the rule application with the
    complete rule set and the ranking; nothing before them ranks. *)
Lemma prospector_find_twins_inv w adv repository ids t commits advisory :
  prospector_find_twins w adv repository ids = (t, Val (commits, advisory)) →
  advisory = adv ∧ (length commits ≤ 100)%nat
  ∧ ∃ t' preprocessed,
      t = t' ++ [EvApplyRules preprocessed ["ALL"]; EvApplyRanking]
      ∧ Forall (λ e, is_ranking e = false) t'.
Proof.
  unfold prospector_find_twins.
  intros [(ta & found & tb & Hlook & Hrest & ->)|(e & _ & [=])]%bind_inv.
  apply bind_inv in Hrest
    as [(tc & [filtered rejected] & td & Hfilter & Hrest & ->)|(e & _ & [=])].
  apply bind_inv in Hrest
    as [(te & preprocessed & tf & Hmake & Hrest & ->)|(e & _ & [=])].
  apply bind_inv in Hrest
    as [(tg & ranked & th & Hrank & Hrest & ->)|(e & _ & [=])].
  injection Hrest as <- <- <-.
  split; [done|]. split; [rewrite length_take; lia|].
  unfold evaluate_commits in Hrank.
  apply bind_inv in Hrank
    as [(ti & scored & tj & Hrules & Hranking & ->)|(e & _ & [=])].
  injection Hrules as <- _. injection Hranking as <- _.
  injection Hfilter as <- _.
  exists (ta ++ [EvFilterCommits found] ++ te), preprocessed.
  split; [by rewrite app_nil_r, <-!app_assoc|].
  rewrite !Forall_app. split_and!.
  - eapply Forall_impl; [eapply for_each_quiet, Hlook|by intros e; exact id].
    intros. apply only_bind; [by apply only_call|]. intros; apply only_ret.
  - by repeat constructor.
  - eapply Forall_impl; [eapply for_each_quiet, Hmake|by intros e; exact id].
    intros. apply only_bind; [by apply only_call|]. intros; apply only_ret.
Qed.

(** The two ways a run continues after the prelude. *)
Lemma prospector_run w p adv tags t1 t2 o :
  prelude w p = (t1, Val (adv, tags)) →
  twin_short_circuit w p adv = (t2, Val o) →
  prospector w p
  = match o with
    | Some (commits, advisory) => (t1 ++ t2, Val (Ranked commits advisory))
    | None => (t1 ++ t2 ++ trace (full_pipeline w p adv tags),
               result (full_pipeline w p adv tags))
    end.
Proof.
  intros Hpre Htwin. unfold prospector.
  rewrite (bind_Val _ _ _ _ Hpre). cbv beta iota.
  rewrite (bind_Val _ _ _ _ Htwin).
  destruct o as [[commits advisory]|]; simpl.
  - by rewrite !app_nil_r.
  - done.
Qed.

(** ** The full pipeline *)

Lemma get_commits_run adv (repository : Git RawCommit) prev_tag next_tag before after :
  ∃ since until,
    @get_commits RawCommit Features Json adv repository prev_tag next_tag
      before after
    = ([EvCreateCommits since until next_tag prev_tag],
       create_commits repository since until next_tag prev_tag
         (files_extension adv))
    ∧ (published_timestamp adv ≠ 0 → next_tag = "" → prev_tag = "" →
       since = Some (published_timestamp adv - before)
       ∧ until = Some (published_timestamp adv + after))
    ∧ (published_timestamp adv = 0 ∨ next_tag ≠ "" ∨ prev_tag ≠ "" →
       since = None ∧ until = None).
Proof.
  unfold get_commits.
  destruct (_ && _ && _) eqn:Hcond; eexists _, _; (split; [done|]);
    rewrite ?andb_true_iff, ?andb_false_iff, ?bool_decide_eq_true,
      ?bool_decide_eq_false in Hcond; split; intros; try done; tauto.
Qed.

(** [select_candidates] when the repository and the filter answer. *)
Lemma select_candidates_run w p adv prev_tag next_tag tc raw candidates rejected :
  @get_commits RawCommit Features Json adv (repository_of w p) prev_tag next_tag
    (time_limit_before p) (time_limit_after p) = (tc, Val raw) →
  filter_commits w raw = Val (candidates, rejected) →
  select_candidates w p adv prev_tag next_tag
  = (tc ++ [EvFilterCommits raw],
     Val (if bool_decide (limit_candidates p < Z.of_nat (length candidates))
          then inl (Sentinel (Z.of_nat (length candidates)))
          else inr candidates)).
Proof.
  intros Hget Hfilter. unfold select_candidates.
  rewrite (bind_Val _ _ _ _ Hget). unfold filter_, call.
  unfold mbind, M_bind, bind. rewrite Hfilter. simpl.
  case_bool_decide; simpl; by rewrite ?app_nil_r.
Qed.

Lemma select_candidates_quiet w p adv prev_tag next_tag :
  only (λ e, is_candidate_scan e = true ∨ ∃ raw, e = EvFilterCommits raw)
    (select_candidates w p adv prev_tag next_tag).
Proof.
  unfold select_candidates.
  destruct (get_commits_run adv (repository_of w p) prev_tag next_tag
    (time_limit_before p) (time_limit_after p)) as (since & until & -> & _).
  apply only_bind; [constructor; [by left|constructor]|].
  intros raw. apply only_bind.
  - unfold filter_. apply only_bind; [apply only_call; eauto|].
    intros []. apply only_ret.
  - intros. case_bool_decide; apply only_ret.
Qed.

(** The full pipeline either stops before preprocessing, or hands over to
    [preprocess_and_rank]; up to there it resolves tags, scans and filters
    only. *)
Lemma full_pipeline_split w p adv tags :
  ∃ pre,
    Forall (λ e, is_tag_resolution e = true ∨ is_candidate_scan e = true
                 ∨ ∃ raw, e = EvFilterCommits raw) pre
    ∧ (trace (full_pipeline w p adv tags) = pre
       ∨ ∃ candidates next_tag,
           trace (full_pipeline w p adv tags)
           = pre ++ trace (preprocess_and_rank w p adv candidates next_tag)).
Proof.
  unfold full_pipeline.
  destruct (bool_decide (version_interval p ≠ "") && _);
    [|exists []; by split; [|left]].
  unfold call, mbind, M_bind, bind.
  destruct (get_possible_tags w tags (version_interval p)) as [[prev_tag next_tag]|e].
  2: { exists [EvGetPossibleTags (version_interval p)]. split; [|by left].
       constructor; [by left|constructor]. }
  destruct (bool_decide (prev_tag = "") && bool_decide (next_tag = "")).
  { exists [EvGetPossibleTags (version_interval p)]. split; [|by left].
    constructor; [by left|constructor]. }
  pose proof (select_candidates_quiet w p adv prev_tag next_tag) as Hsel.
  unfold only, trace in Hsel.
  destruct (select_candidates w p adv prev_tag next_tag) as [ts [[o|candidates]|e]];
    simpl in *.
  - exists (EvGetPossibleTags (version_interval p) :: ts).
    split; [|left; by rewrite app_nil_r].
    constructor; [by left|]. eapply Forall_impl; [exact Hsel|]. tauto.
  - exists (EvGetPossibleTags (version_interval p) :: ts). split.
    + constructor; [by left|]. eapply Forall_impl; [exact Hsel|]. tauto.
    + right. exists candidates, next_tag.
      by destruct (preprocess_and_rank _ _ _ _ _).
  - exists (EvGetPossibleTags (version_interval p) :: ts). split; [|by left].
    constructor; [by left|]. eapply Forall_impl; [exact Hsel|]. tauto.
Qed.

Lemma interval_supplied p :
  version_interval p ≠ "" →
  bool_decide (version_interval p ≠ "")
  && bool_decide (0 < String.length (version_interval p))%nat = true.
Proof.
  intros Hne. rewrite bool_decide_eq_true_2 by done.
  destruct (version_interval p); [done|].
  apply bool_decide_eq_true_2. simpl. lia.
Qed.

Lemma full_pipeline_no_interval w p adv tags :
  version_interval p = "" → full_pipeline w p adv tags = ([], Val (Sentinel (-1))).
Proof. unfold full_pipeline. by intros ->. Qed.

Lemma full_pipeline_resolved w p adv tags prev_tag next_tag :
  version_interval p ≠ "" →
  get_possible_tags w tags (version_interval p) = Val (prev_tag, next_tag) →
  full_pipeline w p adv tags
  = if bool_decide (prev_tag = "") && bool_decide (next_tag = "")
    then ([EvGetPossibleTags (version_interval p)], Val (Sentinel (-1)))
    else
      match select_candidates w p adv prev_tag next_tag with
      | (ts, Val (inl o)) => (EvGetPossibleTags (version_interval p) :: ts, Val o)
      | (ts, Val (inr candidates)) =>
          (EvGetPossibleTags (version_interval p) :: ts
             ++ trace (preprocess_and_rank w p adv candidates next_tag),
           result (preprocess_and_rank w p adv candidates next_tag))
      | (ts, Exc e) => (EvGetPossibleTags (version_interval p) :: ts, Exc e)
      end.
Proof.
  intros Hvi Htags. unfold full_pipeline. rewrite interval_supplied by done.
  unfold call, mbind, M_bind, bind, trace, result. rewrite Htags.
  destruct (bool_decide (prev_tag = "") && bool_decide (next_tag = "")); [done|].
  destruct (select_candidates w p adv prev_tag next_tag) as [ts [[o|candidates]|e]];
    simpl.
  - by rewrite app_nil_r.
  - by destruct (preprocess_and_rank _ _ _ _ _).
  - done.
Qed.

(** Every run is made of calls that neither write to the store nor
    normalise in full, possibly followed by the last stage. *)
Lemma prospector_split w p :
  ∃ pre,
    Forall (λ e, is_store_write e = false ∧ is_local_preprocessing e = false) pre
    ∧ (trace (prospector w p) = pre
       ∨ ∃ adv candidates next_tag,
           trace (prospector w p)
           = pre ++ trace (preprocess_and_rank w p adv candidates next_tag)).
Proof.
  pose proof (prelude_only_setup w p) as Hpre.
  destruct (prelude w p) as [t1 [[adv tags]|e]] eqn:Hrun; unfold only, trace in Hpre;
    simpl in Hpre.
  2: { exists t1. split; [|left; unfold prospector; by erewrite bind_Exc].
       eapply Forall_impl; [exact Hpre|].
       by intros [| | | | | ? []| | | | | |] ?. }
  destruct (twin_short_circuit_total w p adv) as (t2 & o & Htwin).
  pose proof (twin_short_circuit_only w p adv) as Ht2.
  unfold only, trace in Ht2. rewrite Htwin in Ht2. simpl in Ht2.
  assert (Forall (λ e : event,
            is_store_write e = false ∧ is_local_preprocessing e = false)
            (t1 ++ t2)) as Hquiet.
  { apply Forall_app. split; (eapply Forall_impl; [eassumption|]);
      by intros [| | | | | ? []| | | | | |] ?. }
  rewrite (prospector_run _ _ _ _ _ _ _ Hrun Htwin).
  destruct o as [[commits advisory]|]; [exists (t1 ++ t2); split; [done|by left]|].
  destruct (full_pipeline_split w p adv tags) as (pre & Hpipe & [->| Hlast]).
  - exists (t1 ++ t2 ++ pre). split; [|by left].
    rewrite app_assoc. apply Forall_app. split; [done|].
    eapply Forall_impl; [exact Hpipe|]. by intros [] [He|[He|[raw' Heq]]].
  - destruct Hlast as (candidates & next_tag & ->).
    exists (t1 ++ t2 ++ pre). split.
    + rewrite app_assoc. apply Forall_app. split; [done|].
      eapply Forall_impl; [exact Hpipe|]. by intros [] [He|[He|[raw' Heq]]].
    + right. exists adv, candidates, next_tag. unfold trace at 1. simpl.
      by rewrite <-!app_assoc.
Qed.

(** X18: the outcome of the last stage is the outcome of the run: when the
    twin short-circuit has not returned, the interval has resolved and the
    filtered candidates do not exceed the ceiling (a count equal to it
    included), the run continues with [preprocess_and_rank] and ends as it
    ends. *)
Lemma prospector_last_stage w p adv tags t1 t2 prev_tag next_tag tc raw
    candidates rejected :
  prelude w p = (t1, Val (adv, tags)) →
  twin_short_circuit w p adv = (t2, Val None) →
  version_interval p ≠ "" →
  get_possible_tags w tags (version_interval p) = Val (prev_tag, next_tag) →
  ¬ (prev_tag = "" ∧ next_tag = "") →
  @get_commits RawCommit Features Json adv (repository_of w p) prev_tag next_tag
    (time_limit_before p) (time_limit_after p) = (tc, Val raw) →
  filter_commits w raw = Val (candidates, rejected) →
  Z.of_nat (length candidates) ≤ limit_candidates p →
  prospector w p
  = (t1 ++ t2 ++ EvGetPossibleTags (version_interval p) :: tc
       ++ [EvFilterCommits raw]
       ++ trace (preprocess_and_rank w p adv candidates next_tag),
     result (preprocess_and_rank w p adv candidates next_tag)).
Proof.
  intros Hpre Htwin Hvi Htags Hres Hget Hfilter Hfew.
  rewrite (prospector_run _ _ _ _ _ _ _ Hpre Htwin).
  rewrite (full_pipeline_resolved _ _ _ _ _ _ Hvi Htags).
  destruct (bool_decide (prev_tag = "") && bool_decide (next_tag = "")) eqn:Hboth.
  { apply andb_true_iff in Hboth as [?%bool_decide_eq_true ?%bool_decide_eq_true].
    tauto. }
  rewrite (select_candidates_run _ _ _ _ _ _ _ _ _ Hget Hfilter).
  rewrite bool_decide_eq_false_2 by lia.
  unfold trace at 1, result at 1. simpl. by rewrite <-!app_assoc.
Qed.

(** C10: when the store holds every candidate (nothing is missing), nothing
    is written to it, whatever the number of cache hits; and in any run a
    write to the store implies that the backend mode is not "never" and
    that at least one commit was normalised locally in that run. *)
Theorem store_written_only_after_local_preprocessing w p :
  (∀ adv (candidates : dict RawCommit) next_tag t1 hits,
     reconcile w p candidates = (t1, Val (inr ([], hits))) →
     posted (trace (preprocess_and_rank w p adv candidates next_tag)) = [])
  ∧ (∀ payload, payload ∈ posted (trace (prospector w p)) →
       use_backend p ≠ "never"
       ∧ ∃ raw, EvMakeFromRawCommit raw false ∈ trace (prospector w p)).
Proof.
  split.
  - intros adv candidates next_tag t1 hits Hrec.
    rewrite (preprocess_and_rank_run _ _ _ _ _ _ _ _ Hrec).
    unfold local_preprocessing, counter_initialize. simpl. unfold trace at 1. simpl.
    fold (trace (persist_and_rank w p adv [] hits next_tag)).
    rewrite posted_app, persist_and_rank_posted. simpl.
    rewrite andb_false_r, app_nil_r.
    pose proof (reconcile_only_reads w p candidates) as Hr.
    unfold only, trace in Hr. rewrite Hrec in Hr. simpl in Hr.
    apply posted_quiet. eapply Forall_impl; [exact Hr|]. by intros [].
  - intros payload.
    destruct (prospector_split w p) as (pre & Hpre & [->|(adv & cands & next & ->)]).
    + rewrite posted_quiet; [by intros ?%elem_of_nil|].
      eapply Forall_impl; [exact Hpre|]. by intros e [? _].
    + rewrite posted_app, (posted_quiet pre); simpl.
      2: { eapply Forall_impl; [exact Hpre|]. by intros e [? _]. }
      intros (Hmode & raw & Hraw)%preprocess_and_rank_posted.
      split; [done|]. exists raw. set_solver.
Qed.

(** C7: when the advisory names fixing commits, the references are not
    ignored and some commit of the twin path's ranked list (cut to its
    first 100) carries one of the supplied ids, the run returns that list,
    of at most 100 commits, with [has_fixing_commit] set.  Its calls are
    those of the prelude and of the twin lookup only: no tag resolution, no
    candidate scan, no store access, no full normalisation; the last two
    calls are the twin path's own rule application and ranking, so the
    pipeline's ranking and tag aggregation never run. *)
Theorem twin_short_circuit_success w p adv tags t1 t2 commits advisory :
  prelude w p = (t1, Val (adv, tags)) →
  (0 < length (fixing_commit adv))%nat →
  ignore_adv_refs p = false →
  prospector_find_twins w adv (repository_of w p) (fixing_commit adv)
    = (t2, Val (commits, advisory)) →
  (∃ c, c ∈ commits ∧ commit_id c ∈ fixing_commit adv) →
  prospector w p
    = (t1 ++ t2, Val (Ranked commits (set_has_fixing_commit adv true)))
  ∧ has_fixing_commit (set_has_fixing_commit adv true) = true
  ∧ (length commits ≤ 100)%nat
  ∧ Forall (λ e, is_tag_resolution e = false ∧ is_candidate_scan e = false
                 ∧ is_store_read e = false ∧ is_store_write e = false
                 ∧ is_local_preprocessing e = false) (t1 ++ t2)
  ∧ ∃ t' preprocessed,
      t1 ++ t2 = t' ++ [EvApplyRules preprocessed ["ALL"]; EvApplyRanking]
      ∧ Forall (λ e, is_ranking e = false) t'.
Proof.
  intros Hpre Hlen Hflag Htwin Hmatch.
  destruct (prospector_find_twins_inv _ _ _ _ _ _ _ Htwin)
    as (-> & Hcut & t' & preprocessed & -> & Ht').
  pose proof (twin_short_circuit_attempted w p adv Hlen Hflag) as Hshort.
  rewrite Htwin in Hshort.
  assert (bool_decide (0 < length commits)%nat
          && any_object (supplied (fixing_commit adv) commits) = true) as Hcond.
  { apply andb_true_iff. split; [|by apply any_object_supplied].
    apply bool_decide_eq_true_2. destruct Hmatch as (c & Hc & _).
    destruct commits; [by inversion Hc|simpl; lia]. }
  rewrite Hcond in Hshort.
  rewrite (prospector_run _ _ _ _ _ _ _ Hpre Hshort).
  pose proof (prelude_only_setup w p) as Ht1.
  pose proof (prospector_find_twins_only w adv (repository_of w p) (fixing_commit adv))
    as Ht2.
  unfold only, trace in Ht1, Ht2. rewrite Hpre in Ht1. rewrite Htwin in Ht2.
  split_and!; [done..| |].
  - apply Forall_app. split; (eapply Forall_impl; [eassumption|]);
      by intros [| | | | | ? []| | | | | |] ?.
  - exists (t1 ++ t'), preprocessed. split; [by rewrite app_assoc|].
    apply Forall_app. split; [|done].
    simpl in Ht1. clear -Ht1 Hpre. unfold prelude in Hpre.
    apply bind_inv in Hpre as [(ta & a & tb & Ha & Hpre & ->)|(? & _ & [=])].
    apply bind_inv in Hpre as [(tc & ? & td & Hc & Hpre & ->)|(? & _ & [=])].
    apply bind_inv in Hpre as [(te & ? & tf & He & Hpre & ->)|(? & _ & [=])].
    injection Ha as <- _. injection Hc as <- _. injection He as <- _.
    injection Hpre as <- _ _. by repeat constructor.
Qed.

(** C8: once the twin lookup has been attempted, its failure, be it an
    exception raised anywhere inside it (lookup, filter, normalisation, rule
    application, ranking) or a result none of whose commits carries a
    supplied id, never ends the run: the run goes on with the full
    pipeline, which starts at the interval check and tag resolution, on the
    unchanged advisory record, and ends as the full pipeline ends. *)
Theorem twin_failure_falls_through w p adv tags t1 t2 r :
  prelude w p = (t1, Val (adv, tags)) →
  (0 < length (fixing_commit adv))%nat →
  ignore_adv_refs p = false →
  prospector_find_twins w adv (repository_of w p) (fixing_commit adv) = (t2, r) →
  (∃ e, r = Exc e)
  ∨ (∃ commits advisory,
       r = Val (commits, advisory)
       ∧ ∀ c, c ∈ commits → commit_id c ∉ fixing_commit adv) →
  prospector w p
  = (t1 ++ t2 ++ trace (full_pipeline w p adv tags),
     result (full_pipeline w p adv tags)).
Proof.
  intros Hpre Hlen Hflag Htwin Hfail.
  pose proof (twin_short_circuit_attempted w p adv Hlen Hflag) as Hshort.
  rewrite Htwin in Hshort.
  assert (twin_short_circuit w p adv = (t2, Val None)) as Hnone.
  { destruct Hfail as [[e ->]|(commits & advisory & -> & Hno)]; [done|].
    rewrite Hshort. do 2 f_equal.
    destruct (any_object _) eqn:Hany; [|by rewrite andb_false_r].
    apply any_object_supplied in Hany as (c & Hc & Hid). by destruct (Hno c Hc). }
  by rewrite (prospector_run _ _ _ _ _ _ _ Hpre Hnone).
Qed.

(** C6: when the twin short-circuit has not succeeded, an empty interval
    string ends the run with the sentinel [(None, -1)] at once, and so does
    an interval whose bounds both resolve to the empty tag; in neither case
    does the run scan for candidates. *)
Theorem unresolved_interval_is_fatal w p adv tags t1 t2 :
  prelude w p = (t1, Val (adv, tags)) →
  twin_short_circuit w p adv = (t2, Val None) →
  (version_interval p = "" →
     prospector w p = (t1 ++ t2, Val (Sentinel (-1)))
     ∧ Forall (λ e, is_candidate_scan e = false) (trace (prospector w p)))
  ∧ (version_interval p ≠ "" →
     get_possible_tags w tags (version_interval p) = Val ("", "") →
     prospector w p
       = (t1 ++ t2 ++ [EvGetPossibleTags (version_interval p)], Val (Sentinel (-1)))
     ∧ Forall (λ e, is_candidate_scan e = false) (trace (prospector w p))).
Proof.
  intros Hpre Htwin.
  pose proof (prelude_only_setup w p) as Ht1.
  pose proof (twin_short_circuit_only w p adv) as Ht2.
  unfold only, trace in Ht1, Ht2. rewrite Hpre in Ht1. rewrite Htwin in Ht2.
  assert (Forall (λ e : event, is_candidate_scan e = false) (t1 ++ t2)) as Hquiet.
  { apply Forall_app. split; (eapply Forall_impl; [eassumption|]); by intros []. }
  rewrite (prospector_run _ _ _ _ _ _ _ Hpre Htwin). split.
  - intros Hvi. rewrite full_pipeline_no_interval by done.
    unfold trace, result. simpl. by rewrite app_nil_r.
  - intros Hvi Htags. rewrite (full_pipeline_resolved _ _ _ _ _ _ Hvi Htags).
    unfold trace, result. simpl. split; [done|].
    rewrite app_assoc. apply Forall_app. split; [done|]. by repeat constructor.
Qed.

(** C5: when the twin short-circuit has not succeeded, the interval has
    resolved and the filtered candidates outnumber the ceiling, the run
    returns the sentinel [(None, len(candidates))]; after tag resolution its
    only calls are the candidate scan and the filter, so neither the store,
    nor normalisation, nor ranking is reached.  If moreover the twin path
    was not entered, the whole run normalises and ranks nothing.  The
    default ceiling is 2000. *)
Theorem too_many_candidates w p adv tags t1 t2 prev_tag next_tag tc raw
    candidates rejected :
  prelude w p = (t1, Val (adv, tags)) →
  twin_short_circuit w p adv = (t2, Val None) →
  version_interval p ≠ "" →
  get_possible_tags w tags (version_interval p) = Val (prev_tag, next_tag) →
  ¬ (prev_tag = "" ∧ next_tag = "") →
  @get_commits RawCommit Features Json adv (repository_of w p) prev_tag next_tag
    (time_limit_before p) (time_limit_after p) = (tc, Val raw) →
  filter_commits w raw = Val (candidates, rejected) →
  limit_candidates p < Z.of_nat (length candidates) →
  let t3 := EvGetPossibleTags (version_interval p) :: tc ++ [EvFilterCommits raw] in
  prospector w p = (t1 ++ t2 ++ t3, Val (Sentinel (Z.of_nat (length candidates))))
  ∧ Forall (λ e, is_preprocessing e = false ∧ is_ranking e = false
                 ∧ is_store_read e = false ∧ is_store_write e = false) t3
  ∧ (fixing_commit adv = [] ∨ ignore_adv_refs p = true →
     Forall (λ e, is_preprocessing e = false ∧ is_ranking e = false)
       (trace (prospector w p)))
  ∧ (∀ u v, limit_candidates (default_params u v) = 2000).
Proof.
  intros Hpre Htwin Hvi Htags Hres Hget Hfilter Hmany t3.
  assert (prospector w p
          = (t1 ++ t2 ++ t3, Val (Sentinel (Z.of_nat (length candidates))))) as Hrun.
  { rewrite (prospector_run _ _ _ _ _ _ _ Hpre Htwin).
    rewrite (full_pipeline_resolved _ _ _ _ _ _ Hvi Htags).
    destruct (bool_decide (prev_tag = "") && bool_decide (next_tag = "")) eqn:Hboth.
    { apply andb_true_iff in Hboth as [?%bool_decide_eq_true ?%bool_decide_eq_true].
      tauto. }
    rewrite (select_candidates_run _ _ _ _ _ _ _ _ _ Hget Hfilter).
    by rewrite bool_decide_eq_true_2 by done. }
  assert (Forall (λ e : event, is_preprocessing e = false ∧ is_ranking e = false
                 ∧ is_store_read e = false ∧ is_store_write e = false) t3) as Ht3.
  { destruct (get_commits_run adv (repository_of w p) prev_tag next_tag
      (time_limit_before p) (time_limit_after p)) as (since & until & Heq & _).
    rewrite Heq in Hget. injection Hget as <- _. subst t3.
    by repeat constructor. }
  split_and!; [done..| |done].
  intros Hskip. rewrite Hrun. unfold trace. simpl.
  rewrite (twin_short_circuit_skipped _ _ _ Hskip) in Htwin. injection Htwin as <-.
  pose proof (prelude_only_setup w p) as Ht1.
  unfold only, trace in Ht1. rewrite Hpre in Ht1. simpl in *.
  apply Forall_app. split; [|eapply Forall_impl; [exact Ht3|]; tauto].
  clear -Ht1 Hpre. unfold prelude in Hpre.
  apply bind_inv in Hpre as [(ta & a & tb & Ha & Hpre & ->)|(? & _ & [=])].
  apply bind_inv in Hpre as [(tc & ? & td & Hc & Hpre & ->)|(? & _ & [=])].
  apply bind_inv in Hpre as [(te & ? & tf & He & Hpre & ->)|(? & _ & [=])].
  injection Ha as <- _. injection Hc as <- _. injection He as <- _.
  injection Hpre as <- _ _. by repeat constructor.
Qed.


(** * Further properties of the code *)

(** ** Batched lookups *)

Lemma batches_take (l : list string) m :
  concat ((λ i, take 500 (drop i l)) <$> ((λ j, 500 * j)%nat <$> seq 0 m))
  = take (500 * m) l.
Proof.
  induction m as [|m IH]; [done|].
  rewrite seq_S, !fmap_app, concat_app, IH. simpl. rewrite app_nil_r.
  rewrite take_take_drop. f_equal. lia.
Qed.

Lemma batch_starts_spec n i :
  i ∈ batch_starts n ↔ ∃ j, i = (500 * j)%nat ∧ (i < n)%nat.
Proof.
  unfold batch_starts. rewrite list_elem_of_fmap.
  pose proof (Nat.div_mod_eq (n + 499) 500) as Hdiv.
  pose proof (Nat.mod_upper_bound (n + 499) 500) as Hmod.
  split.
  - intros (j & -> & Hj%elem_of_seq). exists j. split; [done|lia].
  - intros (j & -> & Hlt). exists j. split; [done|]. apply elem_of_seq. lia.
Qed.

Lemma id_batches_concat (keys : list string) : concat (id_batches keys) = keys.
Proof.
  unfold id_batches, batch_starts. rewrite batches_take. apply take_ge.
  pose proof (Nat.div_mod_eq (length keys + 499) 500).
  pose proof (Nat.mod_upper_bound (length keys + 499) 500). lia.
Qed.

Lemma id_batches_bounds (keys : list string) :
  Forall (λ b, (0 < length b ≤ 500)%nat) (id_batches keys).
Proof.
  unfold id_batches. apply Forall_fmap, Forall_forall.
  intros i (j & -> & Hlt)%batch_starts_spec. simpl.
  rewrite length_take, length_drop. lia.
Qed.

Section Fetch.

Context (w : World) (repository_url backend_address : string) (keys : list string).

Let url (i : nat) : string :=
  get_url backend_address repository_url (take 500 (drop i keys)).

Lemma fetch_batches_prefix starts responses :
  trace (fetch_batches w repository_url backend_address keys starts responses)
  `prefix_of` (EvGet ∘ url) <$> starts.
Proof.
  revert responses. induction starts as [|i rest IH]; intros responses;
    cbn [fetch_batches].
  - apply prefix_nil.
  - unfold call, mbind, M_bind, bind, trace. fold (url i).
    destruct (requests_get w (url i)) as [r|e]; simpl.
    + case_bool_decide; simpl.
      * apply prefix_cons, prefix_nil.
      * specialize (IH (responses ++ [json r])). unfold trace in IH.
        destruct (fetch_batches _ _ _ _ _ _). simpl in *. by apply prefix_cons.
    + apply prefix_cons, prefix_nil.
Qed.

Lemma fetch_batches_answered starts responses :
  Forall (λ i, answered w (url i)) starts →
  fetch_batches w repository_url backend_address keys starts responses
  = ((EvGet ∘ url) <$> starts,
     Val (responses ++ ((answer_body w ∘ url) <$> starts))).
Proof.
  intros Hok. revert responses.
  induction Hok as [|i rest (r & Hr & Hstatus) _ IH]; intros responses;
    cbn [fetch_batches].
  - by rewrite app_nil_r.
  - fold (url i). erewrite bind_Val; [|unfold call; by rewrite Hr].
    rewrite bool_decide_eq_false_2 by (by intros []).
    rewrite IH. simpl. unfold answer_body at 2. rewrite Hr.
    by rewrite <-app_assoc.
Qed.

Lemma fetch_batches_stops ok i rest responses :
  Forall (λ i, answered w (url i)) ok →
  ¬ answered w (url i) →
  fetch_batches w repository_url backend_address keys (ok ++ i :: rest) responses
  = ((EvGet ∘ url) <$> (ok ++ [i]),
     match requests_get w (url i) with
     | Val _ => Val (responses ++ ((answer_body w ∘ url) <$> ok))
     | Exc e => Exc e
     end).
Proof.
  intros Hok Hbad. revert responses.
  induction Hok as [|j ok (r & Hr & Hstatus) _ IH]; intros responses;
    cbn [fetch_batches app].
  - fold (url i). unfold call, mbind, M_bind, bind.
    destruct (requests_get w (url i)) as [r|e] eqn:Hr; simpl; [|done].
    rewrite bool_decide_eq_true_2; [by rewrite app_nil_r|].
    intros Hs. apply Hbad. by exists r.
  - fold (url j). erewrite bind_Val; [|unfold call; by rewrite Hr].
    rewrite bool_decide_eq_false_2 by (by intros []).
    rewrite IH. simpl. unfold answer_body at 2. rewrite Hr.
    destruct (requests_get w (url i)); [|done]. by rewrite <-app_assoc.
Qed.

End Fetch.

Lemma retrieve_trace w repository_url backend_address (candidates : dict RawCommit) :
  trace (retrieve_preprocessed_commits w repository_url backend_address candidates)
  = trace (fetch_batches w repository_url backend_address (dict_keys candidates)
             (batch_starts (length candidates)) []).
Proof.
  unfold retrieve_preprocessed_commits, mbind, M_bind, bind, trace.
  destruct (fetch_batches _ _ _ _ _ _) as [t [responses|e]]; [|done].
  case_bool_decide; simpl.
  - destruct (missing_ids_lookup w candidates (concat responses)) as [missing ->].
    simpl. by rewrite !app_nil_r.
  - by rewrite !app_nil_r.
Qed.

Lemma batch_urls (repository_url backend_address : string) (candidates : dict RawCommit) :
  (EvGet ∘ (λ i, get_url backend_address repository_url
                   (take 500 (drop i (dict_keys candidates)))))
    <$> batch_starts (length candidates)
  = ((λ b, EvGet (get_url backend_address repository_url b))
       <$> id_batches (dict_keys candidates) : list event).
Proof.
  unfold id_batches, dict_keys. rewrite length_fmap, <-list_fmap_compose. done.
Qed.

(** X1: the lookups go over the candidate ids in slices that, put end to
    end, are the candidate ids in their order, each of 1 to 500 ids; the
    requests made are always an initial part of one GET per slice, and all
    of them when every answer has status 200. *)
Theorem lookups_cover_candidates w repository_url backend_address
    (candidates : dict RawCommit) :
  let batches := id_batches (dict_keys candidates) in
  let gets := (λ b, EvGet (get_url backend_address repository_url b)) <$> batches in
  let run := retrieve_preprocessed_commits w repository_url backend_address
               candidates in
  concat batches = dict_keys candidates
  ∧ Forall (λ b, (0 < length b ≤ 500)%nat) batches
  ∧ trace run `prefix_of` gets
  ∧ (Forall (λ b, answered w (get_url backend_address repository_url b)) batches →
     trace run = gets).
Proof.
  intros batches gets run. subst batches gets run.
  rewrite retrieve_trace, <-batch_urls.
  split_and!.
  - apply id_batches_concat.
  - apply id_batches_bounds.
  - apply fetch_batches_prefix.
  - intros Hok. rewrite fetch_batches_answered; [done|].
    unfold id_batches, dict_keys in Hok. rewrite length_fmap in Hok.
    by rewrite Forall_fmap in Hok.
Qed.

Lemma retrieve_result_of_fetch w repository_url backend_address
    (candidates : dict RawCommit) t r :
  fetch_batches w repository_url backend_address (dict_keys candidates)
    (batch_starts (length candidates)) [] = (t, r) →
  match r with
  | Val responses =>
      ∃ missing,
        result (retrieve_preprocessed_commits w repository_url backend_address
                  candidates)
        = Val (missing, parse_obj w <$> concat responses)
  | Exc e =>
      result (retrieve_preprocessed_commits w repository_url backend_address
                candidates) = Exc e
  end.
Proof.
  intros Hfetch. destruct r as [responses|e].
  - destruct (retrieve_preprocessed_commits_inv _ _ _ _ _ _ Hfetch)
      as (missing & -> & _). by exists missing.
  - unfold retrieve_preprocessed_commits. by erewrite bind_Exc.
Qed.

(** X2: the lookups stop at the first answer that is not a status-200
    response: after it no further GET is made.  If that answer is a
    response, the hits are the records of the answers before it, parsed in
    order; if it is an exception, the exception comes out. *)
Theorem lookups_stop_at_first_failure w repository_url backend_address
    (candidates : dict RawCommit) ok b rest :
  id_batches (dict_keys candidates) = ok ++ b :: rest →
  Forall (λ b, answered w (get_url backend_address repository_url b)) ok →
  ¬ answered w (get_url backend_address repository_url b) →
  let run := retrieve_preprocessed_commits w repository_url backend_address
               candidates in
  trace run
    = (λ b, EvGet (get_url backend_address repository_url b)) <$> (ok ++ [b])
  ∧ match requests_get w (get_url backend_address repository_url b) with
    | Val _ =>
        ∃ missing,
          result run
          = Val (missing,
                 parse_obj w <$>
                   concat ((λ b, answer_body w
                                   (get_url backend_address repository_url b))
                             <$> ok))
    | Exc e => result run = Exc e
    end.
Proof.
  intros Hsplit Hok Hbad run. subst run.
  unfold id_batches, dict_keys in Hsplit. rewrite length_fmap in Hsplit.
  apply fmap_app_inv in Hsplit as (sok & stail & -> & Htail & Hstarts).
  symmetry in Htail.
  apply fmap_cons_inv in Htail as (i & srest & -> & -> & ->).
  rewrite Forall_fmap in Hok.
  pose proof (fetch_batches_stops w repository_url backend_address
                (dict_keys candidates) sok i srest [] Hok Hbad) as Hfetch.
  cbv zeta in Hfetch. rewrite <-Hstarts in Hfetch.
  split.
  - rewrite retrieve_trace, Hfetch. unfold trace. simpl.
    by rewrite !fmap_app, <-list_fmap_compose.
  - apply retrieve_result_of_fetch in Hfetch.
    unfold dict_keys in *.
    destruct (requests_get w _); [|done].
    destruct Hfetch as [missing Hres]. exists missing. rewrite Hres.
    simpl. by rewrite <-!list_fmap_compose.
Qed.

Lemma mapM_omap {A B} (f : A → option B) l k : mapM f l = Some k → omap f l = k.
Proof.
  rewrite mapM_Some. induction 1 as [|x y l k Hx _ IH]; [done|].
  simpl. rewrite Hx. simpl. f_equal. exact IH.
Qed.

Lemma dict_get_fresh {V} (d : dict V) k v (l : list string) :
  k ∉ l → omap (dict_get ((k, v) :: d)) l = omap (dict_get d) l.
Proof.
  induction l as [|k' l IH]; [done|].
  intros [Hne Hl]%not_elem_of_cons. specialize (IH Hl). simpl in *.
  rewrite decide_False by done. unfold omap in IH. by rewrite IH.
Qed.

Lemma dict_get_keys_values {V} (d : dict V) :
  dict_wf d → omap (dict_get d) (dict_keys d) = dict_values d.
Proof.
  unfold dict_wf, dict_keys, dict_values.
  induction d as [|[k v] d IH]; [done|].
  intros [Hk Hd]%NoDup_cons. cbn [fmap list_fmap omap list_omap fst snd dict_get].
  rewrite decide_True by done. f_equal.
  rewrite <-IH by done. by apply (dict_get_fresh d k v).
Qed.

(** X3: when the very first lookup is answered with a status other than
    200, that lookup is the only one made, there is no cache hit, and the
    missing commits are all the candidates' raw commits (in some order). *)
Theorem cold_store_everything_missing w repository_url backend_address
    (candidates : dict RawCommit) r :
  candidates ≠ [] →
  dict_wf candidates →
  requests_get w (get_url backend_address repository_url
                    (take 500 (dict_keys candidates))) = Val r →
  status_code r ≠ 200 →
  ∃ missing,
    retrieve_preprocessed_commits w repository_url backend_address candidates
    = ([EvGet (get_url backend_address repository_url
                 (take 500 (dict_keys candidates)))],
       Val (missing, []))
    ∧ missing ≡ₚ dict_values candidates.
Proof.
  intros Hne Hwf Hr Hstatus.
  assert (∃ rest, batch_starts (length candidates) = 0%nat :: rest) as [rest Hstarts].
  { unfold batch_starts.
    assert (∃ m, ((length candidates + 499) / 500)%nat = S m) as [m ->].
    { destruct candidates; [done|]. simpl.
      destruct ((S (length candidates + 499)) / 500)%nat eqn:Hdiv; [|by eexists].
      apply Nat.div_small_iff in Hdiv; lia. }
    simpl. by eexists. }
  assert (¬ answered w (get_url backend_address repository_url
                          (take 500 (drop 0 (dict_keys candidates))))) as Hbad.
  { intros (r' & Hr' & Hs).
    change (drop 0 (dict_keys candidates)) with (dict_keys candidates) in Hr'.
    rewrite Hr in Hr'. by injection Hr' as <-. }
  pose proof (fetch_batches_stops w repository_url backend_address
                (dict_keys candidates) [] 0%nat rest [] (Forall_nil_2 _) Hbad)
    as Hfetch.
  cbv beta zeta in Hfetch.
  change (drop 0 (dict_keys candidates)) with (dict_keys candidates) in Hfetch.
  rewrite Hr, app_nil_l, <-Hstarts in Hfetch. simpl in Hfetch.
  destruct (retrieve_preprocessed_commits_inv _ _ _ _ _ _ Hfetch)
    as (missing & Hrun & Hmissing).
  exists missing. split; [done|]. simpl in Hmissing.
  rewrite bool_decide_eq_true_2 in Hmissing
    by (destruct candidates; [done|simpl; lia]).
  apply mapM_omap in Hmissing. rewrite <-Hmissing.
  rewrite <-(dict_get_keys_values candidates Hwf).
  apply omap_Permutation. unfold missing_ids, returned_ids. simpl.
  rewrite difference_empty_L. by apply elements_list_to_set.
Qed.

(** ** The last stage, call by call *)

Lemma reconcile_never w p (candidates : dict RawCommit) :
  use_backend p = "never" →
  reconcile w p candidates = ([], Val (inr (dict_values candidates, []))).
Proof. intros Hmode. unfold reconcile. by rewrite Hmode. Qed.

Lemma reconcile_cases w p (candidates : dict RawCommit) t r :
  use_backend p ≠ "never" →
  retrieve_preprocessed_commits w (repository_url p) (backend_address p) candidates
    = (t, r) →
  reconcile w p candidates
  = (t, match r with
        | Val found => Val (inr found)
        | Exc ConnectionError =>
            Val (if bool_decide (use_backend p = "always")
                 then inl (Exited 0)
                 else inr (dict_values candidates, []))
        | Exc (Error msg) => Exc (Error msg)
        end).
Proof.
  intros Hmode Hrun. unfold reconcile.
  rewrite bool_decide_eq_true_2 by done.
  unfold try_except, mbind, M_bind, bind. rewrite Hrun.
  destruct r as [found|[|msg]]; simpl; rewrite ?app_nil_r; try done.
  by case_bool_decide; simpl; rewrite app_nil_r.
Qed.

Lemma persist_and_rank_trace w p adv (missing : list RawCommit) cs next_tag :
  ∃ ranks,
    trace (persist_and_rank w p adv missing cs next_tag)
    = trace (persist w p missing (to_dict w <$> cs)) ++ ranks
    ∧ Forall (λ e, is_ranking e = true) ranks.
Proof.
  unfold persist_and_rank.
  pose proof (evaluate_commits_only_ranks w cs adv (rules p)) as He.
  unfold only, trace, mbind, M_bind, bind in *.
  destruct (persist _ _ _ _) as [tp [[]|e]]; simpl.
  - destruct (evaluate_commits _ _ _ _) as [te [ranked|e]]; simpl in *;
      exists te; by rewrite ?app_nil_r.
  - exists []. by rewrite app_nil_r.
Qed.

(** The calls of the last stage come in the order: store reads,
    full normalisations, at most one store write, ranking. *)
Lemma preprocess_and_rank_stages w p adv (candidates : dict RawCommit) next_tag :
  ∃ reads norms writes ranks,
    trace (preprocess_and_rank w p adv candidates next_tag)
    = reads ++ norms ++ writes ++ ranks
    ∧ Forall (λ e, is_store_read e = true) reads
    ∧ Forall (λ e, is_local_preprocessing e = true) norms
    ∧ (writes = [] ∨ ∃ url payload, writes = [EvPost url payload] ∧ payload ≠ [])
    ∧ Forall (λ e, is_ranking e = true) ranks
    ∧ (use_backend p = "never" → reads = [] ∧ writes = []).
Proof.
  pose proof (reconcile_only_reads w p candidates) as Hreads.
  pose proof (reconcile_never w p candidates) as Hnever.
  destruct (reconcile w p candidates) as [t1 [[o|[missing hits]]|e]] eqn:Hrec;
    unfold only, trace in Hreads; simpl in Hreads.
  1,3: exists t1, [], [], [];
    unfold preprocess_and_rank, trace, mbind, M_bind, bind; rewrite Hrec; simpl;
    rewrite ?app_nil_r; split_and!; try done; [by left|];
    intros Hmode; by specialize (Hnever Hmode).
  assert (use_backend p = "never" → t1 = []) as Ht1.
  { intros Hmode. specialize (Hnever Hmode). by injection Hnever as ->. }
  rewrite (preprocess_and_rank_run _ _ _ _ _ _ _ _ Hrec).
  destruct (local_preprocessing_trace w candidates missing hits) as [k Hk].
  assert (Forall (λ e : event, is_local_preprocessing e = true)
            (normalised k missing)) as Hnorms.
  { apply Forall_forall. unfold normalised.
    by intros e (raw & -> & _)%list_elem_of_fmap. }
  destruct (local_preprocessing _ _ _ _) as [t2 [[o|cs]|e]];
    unfold trace in Hk |- *; simpl in Hk |- *; subst t2.
  1,3: exists t1, (normalised k missing), [], [];
    rewrite ?app_nil_r; split_and!; try done; [by left|]; by intros ?%Ht1.
  fold (trace (persist_and_rank w p adv missing cs next_tag)).
  destruct (persist_and_rank_trace w p adv missing cs next_tag)
    as (ranks & -> & Hranks).
  rewrite persist_trace, length_fmap.
  exists t1, (normalised k missing),
    (if bool_decide (0 < length cs)%nat && bool_decide (use_backend p ≠ "never")
        && bool_decide (0 < length missing)%nat
     then [EvPost (backend_address p +:+ "/commits/") (to_dict w <$> cs)]
     else []), ranks.
  split_and!; try done.
  - destruct (_ && _ && _) eqn:Hcond; [|by left]. right.
    eexists _, _. split; [done|].
    rewrite !andb_true_iff, !bool_decide_eq_true in Hcond.
    destruct cs; [simpl in Hcond; lia|done].
  - intros Hmode. split; [by apply Ht1|].
    rewrite (bool_decide_eq_false_2 (use_backend p ≠ "never")) by tauto.
    by rewrite andb_false_r.
Qed.

(** ** A run, call by call *)

Lemma prelude_is_setup w p : only (λ e, is_setup e = true) (prelude w p).
Proof.
  unfold prelude.
  repeat (apply only_bind; [by apply only_call|]; intros ?).
  apply only_ret.
Qed.

Lemma prospector_find_twins_is_twin_path w adv repository ids :
  only (λ e, is_twin_path e = true) (prospector_find_twins w adv repository ids).
Proof.
  unfold prospector_find_twins.
  apply only_bind.
  { apply only_for_each. intros. apply only_bind; [by apply only_call|].
    intros. apply only_ret. }
  intros commits. apply only_bind; [by apply only_call|]. intros [filtered rejected].
  apply only_bind.
  { apply only_for_each. intros. apply only_bind; [by apply only_call|].
    intros. apply only_ret. }
  intros preprocessed. apply only_bind; [|intros; apply only_ret].
  eapply Forall_impl; [apply evaluate_commits_only_ranks|]. by intros [].
Qed.

Lemma twin_short_circuit_is_twin_path w p adv :
  only (λ e, is_twin_path e = true) (twin_short_circuit w p adv).
Proof.
  unfold twin_short_circuit. destruct (_ && _); [|apply only_ret].
  apply only_try_except; [|intros; apply only_ret].
  apply only_bind; [apply prospector_find_twins_is_twin_path|].
  intros [commits advisory]. destruct (_ && _); apply only_ret.
Qed.

Lemma select_candidates_inv w p adv prev_tag next_tag ts r :
  select_candidates w p adv prev_tag next_tag = (ts, r) →
  ∃ since until,
    (since = None ∧ until = None ∨ prev_tag = "" ∧ next_tag = "")
    ∧ (ts = [EvCreateCommits since until next_tag prev_tag]
       ∨ ∃ raw, ts = [EvCreateCommits since until next_tag prev_tag;
                      EvFilterCommits raw])
    ∧ match r with
      | Val (inl o) =>
          ∃ n : nat, o = Sentinel (Z.of_nat n) ∧ limit_candidates p < Z.of_nat n
      | Val (inr candidates) =>
          Z.of_nat (length candidates) ≤ limit_candidates p
      | Exc _ => True
      end.
Proof.
  unfold select_candidates.
  destruct (get_commits_run adv (repository_of w p) prev_tag next_tag
    (time_limit_before p) (time_limit_after p))
    as (since & until & -> & _ & Hbounded).
  intros Hrun. exists since, until. split.
  { destruct (decide (prev_tag = "")) as [->|?]; [|left; apply Hbounded; tauto].
    destruct (decide (next_tag = "")) as [->|?]; [by right|].
    left; apply Hbounded; tauto. }
  revert Hrun. unfold filter_, call, mbind, M_bind, bind.
  destruct (create_commits _ _ _ _ _ _) as [raw|e]; simpl.
  2: { intros [= <- <-]. split; [by left|done]. }
  destruct (filter_commits w raw) as [[candidates rejected]|e]; simpl.
  2: { intros [= <- <-]. split; [right; by eexists|done]. }
  case_bool_decide; simpl; intros [= <- <-]; (split; [right; by eexists|]).
  - by eexists.
  - lia.
Qed.

(** The full pipeline resolves tags, scans at most once, never over a time
    window, filters, and then hands over to the last stage or stops. *)
Lemma full_pipeline_stages w p adv tags :
  ∃ t3 t4,
    trace (full_pipeline w p adv tags) = t3 ++ t4
    ∧ Forall (λ e, is_selection e = true) t3
    ∧ (scan_windows t3 = [] ∨ scan_windows t3 = [(None, None)])
    ∧ (t4 = []
       ∨ ∃ candidates next_tag,
           t4 = trace (preprocess_and_rank w p adv candidates next_tag)).
Proof.
  destruct (decide (version_interval p = "")) as [Hvi|Hvi].
  { rewrite full_pipeline_no_interval by done. exists [], []. simpl.
    split_and!; try done; by left. }
  destruct (get_possible_tags w tags (version_interval p))
    as [[prev_tag next_tag]|e] eqn:Htags.
  2: { exists [EvGetPossibleTags (version_interval p)], [].
       unfold full_pipeline. rewrite interval_supplied by done.
       unfold call, mbind, M_bind, bind. rewrite Htags. simpl.
       split_and!; try done; [by repeat constructor|by left|by left]. }
  rewrite (full_pipeline_resolved _ _ _ _ _ _ Hvi Htags).
  destruct (bool_decide (prev_tag = "") && bool_decide (next_tag = "")) eqn:Hboth.
  { exists [EvGetPossibleTags (version_interval p)], []. simpl.
    split_and!; try done; [by repeat constructor|by left|by left]. }
  assert (¬ (prev_tag = "" ∧ next_tag = "")) as Hres.
  { intros [-> ->]. done. }
  destruct (select_candidates w p adv prev_tag next_tag) as [ts r] eqn:Hsel.
  destruct (select_candidates_inv _ _ _ _ _ _ _ Hsel)
    as (since & until & [[-> ->]|?] & Hts & _); [|done].
  assert (Forall (λ e : event, is_selection e = true)
            (EvGetPossibleTags (version_interval p) :: ts)
          ∧ scan_windows (EvGetPossibleTags (version_interval p) :: ts)
            = [(None, None)]) as [Hsel3 Hscan].
  { destruct Hts as [->|[raw ->]]; split; by repeat constructor. }
  destruct r as [[o|candidates]|e]; unfold trace; simpl.
  - exists (EvGetPossibleTags (version_interval p) :: ts), [].
    rewrite app_nil_r. split_and!; try done; [by right|by left].
  - exists (EvGetPossibleTags (version_interval p) :: ts),
      (trace (preprocess_and_rank w p adv candidates next_tag)).
    split_and!; try done; [by right|]. right. by eexists _, _.
  - exists (EvGetPossibleTags (version_interval p) :: ts), [].
    rewrite app_nil_r. split_and!; try done; [by right|by left].
Qed.

(** A run is made of the setup, the twin path (none when the references
    are ignored), the selection of candidates and the last stage. *)
Lemma prospector_stages w p :
  ∃ t1 t2 t3 t4,
    trace (prospector w p) = t1 ++ t2 ++ t3 ++ t4
    ∧ Forall (λ e, is_setup e = true) t1
    ∧ Forall (λ e, is_twin_path e = true) t2
    ∧ (ignore_adv_refs p = true → t2 = [])
    ∧ Forall (λ e, is_selection e = true) t3
    ∧ (scan_windows t3 = [] ∨ scan_windows t3 = [(None, None)])
    ∧ (t4 = []
       ∨ ∃ adv candidates next_tag,
           t4 = trace (preprocess_and_rank w p adv candidates next_tag)).
Proof.
  pose proof (prelude_is_setup w p) as Ht1.
  destruct (prelude w p) as [t1 [[adv tags]|e]] eqn:Hpre;
    unfold only, trace in Ht1; simpl in Ht1.
  2: { exists t1, [], [], []. unfold prospector. erewrite bind_Exc by done.
       unfold trace. simpl. rewrite app_nil_r.
       split_and!; try done; by left. }
  destruct (twin_short_circuit_total w p adv) as (t2 & o & Htwin).
  pose proof (twin_short_circuit_is_twin_path w p adv) as Ht2.
  unfold only, trace in Ht2. rewrite Htwin in Ht2. simpl in Ht2.
  assert (ignore_adv_refs p = true → t2 = []) as Hskip.
  { intros Hflag. rewrite twin_short_circuit_skipped in Htwin by tauto.
    by injection Htwin as <-. }
  rewrite (prospector_run _ _ _ _ _ _ _ Hpre Htwin).
  destruct o as [[commits advisory]|].
  { exists t1, t2, [], []. unfold trace. simpl. rewrite app_nil_r.
    split_and!; try done; by left. }
  destruct (full_pipeline_stages w p adv tags) as (t3 & t4 & Heq & Ht3 & Hscan & Ht4).
  exists t1, t2, t3, t4. unfold trace at 1. simpl. rewrite Heq.
  split_and!; try done.
  destruct Ht4 as [->|(candidates & next_tag & ->)]; [by left|].
  right. by eexists _, _, _.
Qed.

Lemma scan_windows_app (t1 t2 : list event) :
  scan_windows (t1 ++ t2) = scan_windows t1 ++ scan_windows t2.
Proof. apply omap_app. Qed.

Lemma scan_windows_quiet (t : list event) :
  Forall (λ e, is_candidate_scan e = false) t → scan_windows t = [].
Proof.
  induction 1 as [|e t He _ IH]; [done|].
  destruct e; try done; exact IH.
Qed.

(** X4: with the backend mode "never" a run neither reads from nor writes
    to the store. *)
Theorem never_mode_leaves_store_alone w p :
  use_backend p = "never" →
  Forall (λ e, is_store_read e = false ∧ is_store_write e = false)
    (trace (prospector w p)).
Proof.
  intros Hmode.
  destruct (prospector_stages w p)
    as (t1 & t2 & t3 & t4 & -> & Ht1 & Ht2 & _ & Ht3 & _ & Ht4).
  rewrite !Forall_app. split_and!.
  - eapply Forall_impl; [exact Ht1|]. by intros [].
  - eapply Forall_impl; [exact Ht2|]. by intros [].
  - eapply Forall_impl; [exact Ht3|]. by intros [].
  - destruct Ht4 as [->|(adv & candidates & next_tag & ->)]; [done|].
    destruct (preprocess_and_rank_stages w p adv candidates next_tag)
      as (reads & norms & writes & ranks & -> & _ & Hnorms & _ & Hranks & Hnever).
    destruct (Hnever Hmode) as [-> ->]. simpl.
    apply Forall_app. split.
    + eapply Forall_impl; [exact Hnorms|]. by intros [].
    + eapply Forall_impl; [exact Hranks|]. by intros [].
Qed.

(** X5: a run scans the repository for candidates at most once, and that
    scan is never bounded in time: [since] and [until] are both [None],
    whatever the publication timestamp and the time limits. *)
Theorem scans_are_never_time_bounded w p :
  scan_windows (trace (prospector w p)) = []
  ∨ scan_windows (trace (prospector w p)) = [(None, None)].
Proof.
  destruct (prospector_stages w p)
    as (t1 & t2 & t3 & t4 & -> & Ht1 & Ht2 & _ & Ht3 & Hscan & Ht4).
  rewrite !scan_windows_app.
  rewrite (scan_windows_quiet t1), (scan_windows_quiet t2), (scan_windows_quiet t4).
  - by rewrite app_nil_r.
  - destruct Ht4 as [->|(adv & candidates & next_tag & ->)]; [done|].
    destruct (preprocess_and_rank_stages w p adv candidates next_tag)
      as (reads & norms & writes & ranks & -> & Hreads & Hnorms & Hwrites & Hranks & _).
    rewrite !Forall_app. split_and!.
    + eapply Forall_impl; [exact Hreads|]. by intros [].
    + eapply Forall_impl; [exact Hnorms|]. by intros [].
    + destruct Hwrites as [->|(url & payload & -> & _)]; by repeat constructor.
    + eapply Forall_impl; [exact Hranks|]. by intros [].
  - eapply Forall_impl; [exact Ht2|]. by intros [].
  - eapply Forall_impl; [exact Ht1|]. by intros [].
Qed.

(** X6: a run writes to the store at most once, and never an empty
    payload. *)
Theorem store_written_at_most_once w p :
  posted (trace (prospector w p)) = []
  ∨ ∃ payload, posted (trace (prospector w p)) = [payload] ∧ payload ≠ [].
Proof.
  destruct (prospector_stages w p)
    as (t1 & t2 & t3 & t4 & -> & Ht1 & Ht2 & _ & Ht3 & _ & Ht4).
  rewrite !posted_app.
  rewrite (posted_quiet t1), (posted_quiet t2), (posted_quiet t3).
  2: { eapply Forall_impl; [exact Ht3|]. by intros []. }
  2: { eapply Forall_impl; [exact Ht2|]. by intros []. }
  2: { eapply Forall_impl; [exact Ht1|]. by intros []. }
  simpl.
  destruct Ht4 as [->|(adv & candidates & next_tag & ->)]; [by left|].
  destruct (preprocess_and_rank_stages w p adv candidates next_tag)
    as (reads & norms & writes & ranks & -> & Hreads & Hnorms & Hwrites & Hranks & _).
  rewrite !posted_app.
  rewrite (posted_quiet reads), (posted_quiet norms), (posted_quiet ranks).
  2: { eapply Forall_impl; [exact Hranks|]. by intros []. }
  2: { eapply Forall_impl; [exact Hnorms|]. by intros [| | | | |? []| | | | | |]. }
  2: { eapply Forall_impl; [exact Hreads|]. by intros []. }
  simpl. rewrite app_nil_r.
  destruct Hwrites as [->|(url & payload & -> & Hne)]; [by left|].
  right. by exists payload.
Qed.


(** X8: with [ignore_adv_refs] set, a run makes no twin lookup and no
    simplified normalisation, whatever fixing commits the advisory names. *)
Theorem ignored_references_skip_twin_path w p :
  ignore_adv_refs p = true →
  Forall (λ e, is_twin_lookup e = false ∧ is_simplified_preprocessing e = false)
    (trace (prospector w p)).
Proof.
  intros Hflag.
  destruct (prospector_stages w p)
    as (t1 & t2 & t3 & t4 & -> & Ht1 & _ & Hskip & Ht3 & _ & Ht4).
  rewrite (Hskip Hflag). simpl. rewrite !Forall_app. split_and!.
  - eapply Forall_impl; [exact Ht1|]. by intros [].
  - eapply Forall_impl; [exact Ht3|]. by intros [].
  - destruct Ht4 as [->|(adv & candidates & next_tag & ->)]; [done|].
    destruct (preprocess_and_rank_stages w p adv candidates next_tag)
      as (reads & norms & writes & ranks & -> & Hreads & Hnorms & Hwrites & Hranks & _).
    rewrite !Forall_app. split_and!.
    + eapply Forall_impl; [exact Hreads|]. by intros [].
    + eapply Forall_impl; [exact Hnorms|]. by intros [| | | | |? []| | | | | |].
    + destruct Hwrites as [->|(url & payload & -> & _)]; by repeat constructor.
    + eapply Forall_impl; [exact Hranks|]. by intros [].
Qed.

(** ** What a run can return *)

Lemma fetch_batches_raises w repository_url backend_address keys starts responses t e :
  fetch_batches w repository_url backend_address keys starts responses = (t, Exc e) →
  ∃ t' url, t = t' ++ [EvGet url] ∧ requests_get w url = Exc e.
Proof.
  revert responses t. induction starts as [|i rest IH]; intros responses t;
    cbn [fetch_batches]; [done|].
  intros [(t1 & r & t2 & Hcall & Hrest & ->)|(e' & Hcall & [= ->])]%bind_inv.
  - injection Hcall as <- Hget. case_bool_decide; [done|].
    apply IH in Hrest as (t' & url & -> & Hurl).
    exists (EvGet (get_url backend_address repository_url
                     (take 500 (drop i keys))) :: t'), url. by split.
  - injection Hcall as <- Hget.
    by exists [], (get_url backend_address repository_url (take 500 (drop i keys))).
Qed.

Lemma retrieve_raises w repository_url backend_address (candidates : dict RawCommit) t e :
  retrieve_preprocessed_commits w repository_url backend_address candidates
    = (t, Exc e) →
  ∃ t' url, t = t' ++ [EvGet url] ∧ requests_get w url = Exc e.
Proof.
  intros Hrun.
  destruct (fetch_batches w repository_url backend_address (dict_keys candidates)
              (batch_starts (length candidates)) []) as [t0 [responses|e0]] eqn:Hfetch.
  - destruct (retrieve_preprocessed_commits_inv _ _ _ _ _ _ Hfetch)
      as (missing & Heq & _). congruence.
  - unfold retrieve_preprocessed_commits in Hrun.
    erewrite bind_Exc in Hrun by done. injection Hrun as <- <-.
    by eapply fetch_batches_raises.
Qed.

Lemma preprocess_and_rank_outcome w p adv (candidates : dict RawCommit) next_tag o :
  result (preprocess_and_rank w p adv candidates next_tag) = Val o →
  (o = Exited 0 ∧ use_backend p = "always"
   ∧ ∃ t' url, trace (preprocess_and_rank w p adv candidates next_tag)
               = t' ++ [EvGet url]
               ∧ requests_get w url = Exc ConnectionError)
  ∨ (o = Sentinel (Z.of_nat (length candidates)) ∧ (1000 < length candidates)%nat)
  ∨ (∃ ranked, o = Ranked ranked adv).
Proof.
  destruct (reconcile w p candidates) as [t1 [[o'|[missing hits]]|e]] eqn:Hrec.
  - unfold preprocess_and_rank, result, trace, mbind, M_bind, bind.
    rewrite Hrec. simpl. intros [= ->]. left. rewrite app_nil_r.
    destruct (decide (use_backend p = "never")) as [Hmode|Hmode].
    { by rewrite reconcile_never in Hrec. }
    destruct (retrieve_preprocessed_commits w (repository_url p)
                (backend_address p) candidates) as [t r] eqn:Hrun.
    rewrite (reconcile_cases _ _ _ _ _ Hmode Hrun) in Hrec.
    destruct r as [found|[|msg]]; try done.
    case_bool_decide; [|done]. injection Hrec as <- <-.
    split_and!; [done..|]. by eapply retrieve_raises.
  - rewrite (preprocess_and_rank_run _ _ _ _ _ _ _ _ Hrec).
    destruct (local_preprocessing w candidates missing hits)
      as [t2 [[o'|cs]|e]] eqn:Hloc; unfold result; simpl; [| |done].
    + intros [= ->]. right. left.
      unfold local_preprocessing, counter_initialize in Hloc.
      case_bool_decide; [|done].
      apply preprocess_loop_abort_inv in Hloc as (-> & k & _ & Hover & _).
      apply overloaded_spec in Hover. tauto.
    + intros Hres. right. right. by eapply persist_and_rank_result.
  - unfold preprocess_and_rank, result, mbind, M_bind, bind. by rewrite Hrec.
Qed.

Lemma twin_short_circuit_inv w p adv t commits advisory :
  twin_short_circuit w p adv = (t, Val (Some (commits, advisory))) →
  advisory = set_has_fixing_commit adv true
  ∧ ignore_adv_refs p = false
  ∧ (length commits ≤ 100)%nat
  ∧ ∃ c, c ∈ commits ∧ commit_id c ∈ fixing_commit adv.
Proof.
  intros Htwin.
  destruct (ignore_adv_refs p) eqn:Hflag.
  { by rewrite twin_short_circuit_skipped in Htwin by tauto. }
  destruct (decide (0 < length (fixing_commit adv))%nat) as [Hlen|Hlen].
  2: { rewrite twin_short_circuit_skipped in Htwin; [done|].
       left. destruct (fixing_commit adv); [done|simpl in Hlen; lia]. }
  rewrite twin_short_circuit_attempted in Htwin by done.
  destruct (prospector_find_twins _ _ _ _) as [t0 [[cs a]|e]] eqn:Hfind; [|done].
  apply prospector_find_twins_inv in Hfind as (-> & Hcut & _).
  destruct (_ && _) eqn:Hcond; [|done]. injection Htwin as <- <- <-.
  apply andb_true_iff in Hcond as [_ Hany%any_object_supplied]. done.
Qed.

(** The ways a run ends with a value. *)
Lemma prospector_outcome w p o :
  result (prospector w p) = Val o →
  ∃ t1 adv tags,
    prelude w p = (t1, Val (adv, tags))
    ∧ ((∃ commits,
          o = Ranked commits (set_has_fixing_commit adv true)
          ∧ ignore_adv_refs p = false
          ∧ (length commits ≤ 100)%nat
          ∧ ∃ c, c ∈ commits ∧ commit_id c ∈ fixing_commit adv)
       ∨ o = Sentinel (-1)
       ∨ (∃ n : nat, o = Sentinel (Z.of_nat n) ∧ limit_candidates p < Z.of_nat n)
       ∨ (∃ candidates next_tag pre,
            Z.of_nat (length candidates) ≤ limit_candidates p
            ∧ result (preprocess_and_rank w p adv candidates next_tag) = Val o
            ∧ trace (prospector w p)
              = pre ++ trace (preprocess_and_rank w p adv candidates next_tag))).
Proof.
  destruct (prelude w p) as [t1 [[adv tags]|e]] eqn:Hpre.
  2: { unfold prospector. by erewrite bind_Exc. }
  destruct (twin_short_circuit_total w p adv) as (t2 & short & Htwin).
  rewrite (prospector_run _ _ _ _ _ _ _ Hpre Htwin).
  intros Hres. exists t1, adv, tags. split; [done|].
  destruct short as [[commits advisory]|].
  { apply twin_short_circuit_inv in Htwin as (-> & Hflag & Hcut & Hmatch).
    injection Hres as <-. left. by exists commits. }
  unfold result at 1 in Hres. simpl in Hres. right.
  destruct (decide (version_interval p = "")) as [Hvi|Hvi].
  { rewrite full_pipeline_no_interval in Hres by done. injection Hres as <-.
    by left. }
  destruct (get_possible_tags w tags (version_interval p))
    as [[prev_tag next_tag]|e] eqn:Htags.
  2: { unfold full_pipeline in Hres. rewrite interval_supplied in Hres by done.
       unfold call, result, mbind, M_bind, bind in Hres. by rewrite Htags in Hres. }
  rewrite (full_pipeline_resolved _ _ _ _ _ _ Hvi Htags) in Hres |- *.
  destruct (bool_decide (prev_tag = "") && bool_decide (next_tag = "")).
  { injection Hres as <-. by left. }
  destruct (select_candidates w p adv prev_tag next_tag) as [ts r] eqn:Hsel.
  destruct (select_candidates_inv _ _ _ _ _ _ _ Hsel) as (_ & _ & _ & _ & Hr).
  destruct r as [[o'|candidates]|e]; unfold result in Hres; simpl in Hres; [| |done].
  - injection Hres as <-. right. by left.
  - right. right. exists candidates, next_tag,
      (t1 ++ t2 ++ EvGetPossibleTags (version_interval p) :: ts).
    split_and!; [done..|]. unfold trace at 1. simpl.
    by rewrite <-!app_assoc.
Qed.

(** X9: a sentinel [(None, n)] returned by a run is -1, or a candidate
    count above the configured ceiling, or a candidate count above 1000
    that the ceiling admits. *)
Theorem sentinel_values w p n :
  result (prospector w p) = Val (Sentinel n) →
  n = -1 ∨ limit_candidates p < n ∨ 1000 < n ≤ limit_candidates p.
Proof.
  intros (t1 & adv & tags & _ & Hcases)%prospector_outcome.
  destruct Hcases as [(commits & [=] & _)|[[= ->]|[(m & [= ->] & Hm)|Hlast]]].
  - by left.
  - right. by left.
  - destruct Hlast as (candidates & next_tag & pre & Hfew & Hres & _).
    apply preprocess_and_rank_outcome in Hres
      as [([=] & _)|[([= ->] & Hmany)|(ranked & [=])]].
    right. right. lia.
Qed.

(** X10: a run ends the process only with exit code 0, only in backend mode
    "always", and only right after a store lookup that raised
    [ConnectionError]. *)
Theorem exit_only_when_required_store_is_unreachable w p code :
  result (prospector w p) = Val (Exited code) →
  code = 0 ∧ use_backend p = "always"
  ∧ ∃ t' url, trace (prospector w p) = t' ++ [EvGet url]
              ∧ requests_get w url = Exc ConnectionError.
Proof.
  intros (t1 & adv & tags & _ & Hcases)%prospector_outcome.
  destruct Hcases as [(commits & [=] & _)|[[=]|[(m & [=] & _)|Hlast]]].
  destruct Hlast as (candidates & next_tag & pre & _ & Hres & ->).
  apply preprocess_and_rank_outcome in Hres
    as [([= ->] & Hmode & t' & url & -> & Hurl)|[([=] & _)|(ranked & [=])]].
  split_and!; [done..|]. exists (pre ++ t'), url. by rewrite app_assoc.
Qed.

(** X11: the advisory a run returns with its ranking is the one built at
    the start, unchanged, or that one with [has_fixing_commit] set; the
    latter comes with at most 100 commits, one of which carries an id the
    advisory names, and never when the references are ignored. *)
Theorem returned_advisory w p commits advisory :
  result (prospector w p) = Val (Ranked commits advisory) →
  ∃ t1 adv tags,
    prelude w p = (t1, Val (adv, tags))
    ∧ (advisory = adv
       ∨ advisory = set_has_fixing_commit adv true
         ∧ ignore_adv_refs p = false
         ∧ (length commits ≤ 100)%nat
         ∧ ∃ c, c ∈ commits ∧ commit_id c ∈ fixing_commit adv).
Proof.
  intros (t1 & adv & tags & Hpre & Hcases)%prospector_outcome.
  exists t1, adv, tags. split; [done|].
  destruct Hcases as [(cs & [= -> ->] & Hrest)|[[=]|[(m & [=] & _)|Hlast]]].
  { by right. }
  destruct Hlast as (candidates & next_tag & pre & _ & Hres & _).
  apply preprocess_and_rank_outcome in Hres
    as [([=] & _)|[([=] & _)|(ranked & [= -> ->])]].
  by left.
Qed.

(** ** An unreachable store *)

(** X12: when a store lookup raises [ConnectionError] (mode not "never"),
    mode "always" ends the last stage with exit code 0 right there, and any
    other mode goes on with every candidate missing and no cache hit. *)
Theorem unreachable_store_on_lookup w p adv (candidates : dict RawCommit)
    next_tag t :
  use_backend p ≠ "never" →
  retrieve_preprocessed_commits w (repository_url p) (backend_address p) candidates
    = (t, Exc ConnectionError) →
  (use_backend p = "always" →
     preprocess_and_rank w p adv candidates next_tag = (t, Val (Exited 0)))
  ∧ (use_backend p ≠ "always" →
     reconcile w p candidates = (t, Val (inr (dict_values candidates, [])))).
Proof.
  intros Hmode Hrun.
  pose proof (reconcile_cases _ _ _ _ _ Hmode Hrun) as Hrec. simpl in Hrec.
  split; intros Halways.
  - rewrite bool_decide_eq_true_2 in Hrec by done.
    unfold preprocess_and_rank. rewrite (bind_Val _ _ _ _ Hrec). simpl.
    by rewrite app_nil_r.
  - by rewrite bool_decide_eq_false_2 in Hrec.
Qed.



(** X14: with no candidate at all the last stage makes no store request,
    normalises nothing and writes nothing, whatever the mode: it applies
    the rules to the empty list and ranks. *)
Theorem no_candidates_go_straight_to_ranking w p adv next_tag :
  preprocess_and_rank w p adv ([] : dict RawCommit) next_tag
  = (ranked ← evaluate_commits w [] adv (rules p);
     mret (Ranked (tag_and_aggregate_commits w ranked (Some next_tag)) adv)).
Proof.
  assert (reconcile w p ([] : dict RawCommit) = ([], Val (inr ([], [])))) as Hrec.
  { unfold reconcile. by case_bool_decide. }
  rewrite (preprocess_and_rank_run _ _ _ _ _ _ _ _ Hrec).
  unfold local_preprocessing, persist_and_rank, persist, trace, result.
  simpl. by destruct (_ ≫= _).
Qed.

(** ** [preprocess_commits] *)

Lemma overloaded_few w count n : (n ≤ 1000)%nat → overloaded w count n = false.
Proof.
  intros Hn. destruct (overloaded w count n) eqn:Hover; [|done].
  apply overloaded_spec in Hover. lia.
Qed.

Lemma preprocess_commits_loop w (now : nat → Q) n (commits : list RawCommit)
    count acc :
  (n ≤ 1000)%nat →
  preprocess_loop w n commits count acc
  = (cs ← (r ← for_each commits
             (λ '(count, preprocessed_commits) raw_commit,
                let count := counter_increment count in
                let counter_val := count in
                let _ :=
                  if bool_decide (counter_val mod 100 = 0)%nat
                     && negb (Qle_bool (inject_Z (Z.of_nat counter_val * 2))
                                (now count))
                  then () else () in
                c ← call (EvMakeFromRawCommit raw_commit false)
                         (make_from_raw_commit w raw_commit false);
                mret (count, preprocessed_commits ++ [c]))
             (count, acc);
           mret r.2);
     mret (inr cs)).
Proof.
  intros Hn. revert count acc.
  induction commits as [|raw rest IH]; intros count acc;
    cbn [preprocess_loop for_each]; unfold counter_increment; [done|].
  unfold call, mbind, M_bind, bind in *. cbv zeta.
  destruct (make_from_raw_commit w raw false) as [c|e]; [|done]. simpl.
  rewrite overloaded_few by done. rewrite IH.
  by destruct (for_each rest _ _) as [t [[]|]].
Qed.

(** X15: [preprocess_commits] never aborts: its time test guards nothing.
    It normalises every commit in full, in order, and returns one commit
    per raw commit; for 1000 candidates or fewer the loop inside
    [prospector] does exactly the same. *)
Theorem preprocess_commits_never_aborts w (now : nat → Q)
    (commits : list RawCommit) :
  (∀ computed,
     Forall2 (λ raw c, make_from_raw_commit w raw false = Val c) commits computed →
     preprocess_commits w now commits
     = (normalised (length commits) commits, Val computed))
  ∧ (∀ n, (n ≤ 1000)%nat →
     preprocess_loop w n commits counter_initialize []
     = (cs ← preprocess_commits w now commits; mret (inr cs))).
Proof.
  assert (∀ n, (n ≤ 1000)%nat →
     preprocess_loop w n commits counter_initialize []
     = (cs ← preprocess_commits w now commits; mret (inr cs))) as Hsame.
  { intros n Hn. unfold preprocess_commits.
    by apply (preprocess_commits_loop w now). }
  split; [|done].
  intros computed Hall.
  specialize (Hsame 0%nat (Nat.le_0_l _)).
  rewrite (preprocess_loop_complete w 0 commits counter_initialize [] computed Hall)
    in Hsame.
  2: { intros k _. apply overloaded_few. lia. }
  destruct (preprocess_commits w now commits) as [t [cs|e]];
    unfold mbind, M_bind, bind in Hsame; simpl in Hsame.
  - rewrite app_nil_r in Hsame. by injection Hsame as -> ->.
  - done.
Qed.

(** ** The twin lookups *)

Lemma twin_lookups_app (t1 t2 : list event) :
  twin_lookups (t1 ++ t2) = twin_lookups t1 ++ twin_lookups t2.
Proof. apply omap_app. Qed.

Lemma twin_lookups_quiet (t : list event) :
  Forall (λ e, is_twin_lookup e = false) t → twin_lookups t = [].
Proof.
  induction 1 as [|e t He _ IH]; [done|].
  destruct e; try done; exact IH.
Qed.

Lemma lookup_loop_trace (repository : Git RawCommit) (ids : list string)
    (commits : dict RawCommit) :
  let run : M (dict RawCommit) :=
    for_each ids
      (λ commits commit_id,
         found ← call (EvTwinLookup commit_id)
                      (find_commits_for_twin_lookups repository commit_id);
         mret (dict_union commits found))
      commits in
  twin_lookups (trace run) `prefix_of` ids
  ∧ Forall (λ e, is_twin_lookup e = true) (trace run)
  ∧ (∀ r, result run = Val r → twin_lookups (trace run) = ids).
Proof.
  revert commits. induction ids as [|id ids IH]; intros commits; cbn [for_each].
  - split_and!; [apply prefix_nil|constructor|done].
  - specialize (IH (dict_union commits
                      match find_commits_for_twin_lookups repository id with
                      | Val found => found | Exc _ => [] end)).
    cbv zeta in IH |- *.
    unfold call, mbind, M_bind, bind, trace, result in *.
    destruct (find_commits_for_twin_lookups repository id) as [found|e]; simpl.
    + destruct (for_each ids _ _) as [t r]. simpl in *.
      destruct IH as (Hpre & Hall & Hval). split_and!.
      * by apply prefix_cons.
      * by constructor.
      * intros r' ->. f_equal. by eapply Hval.
    + split_and!; [apply prefix_cons, prefix_nil|by repeat constructor|done].
Qed.

(** X16: the twin path looks up each supplied fixing-commit id at most
    once, however often the advisory repeats it, and looks up nothing
    else; when it returns, every supplied id has been looked up. *)
Theorem each_supplied_id_is_looked_up_once w adv (repository : Git RawCommit)
    (ids : list string) :
  let run := prospector_find_twins w adv repository ids in
  NoDup (twin_lookups (trace run))
  ∧ (∀ id, id ∈ twin_lookups (trace run) → id ∈ ids)
  ∧ (∀ r, result run = Val r → ∀ id, id ∈ ids → id ∈ twin_lookups (trace run)).
Proof.
  intros run. subst run. unfold prospector_find_twins.
  pose proof (lookup_loop_trace repository
                (elements (list_to_set ids : gset string)) []) as Hloop.
  cbv zeta in Hloop. destruct Hloop as (Hpre & _ & Hval).
  set (loop := for_each _ _ _) in *.
  assert (NoDup (twin_lookups (trace loop))
          ∧ ∀ id, id ∈ twin_lookups (trace loop) → id ∈ ids) as [Hnd Hsub].
  { destruct Hpre as [k Hk]. split.
    - pose proof (NoDup_elements (list_to_set ids : gset string)) as Hel.
      rewrite Hk in Hel. by apply NoDup_app in Hel as [? _].
    - intros id Hid.
      assert (id ∈ elements (list_to_set ids : gset string)) as Hin
        by (rewrite Hk; set_solver).
      by rewrite elem_of_elements, elem_of_list_to_set in Hin. }
  clearbody loop. destruct loop as [t1 [merged|e]].
  2: { rewrite (bind_Exc _ _ t1 e eq_refl). by split_and!. }
  rewrite (bind_Val _ _ t1 merged eq_refl). cbv beta.
  match goal with
  | |- context [(t1 ++ (?rest).1, (?rest).2)] =>
      assert (only (λ e, is_twin_lookup e = false) rest) as Hrest;
      [|destruct rest as [t2 r2]]
  end.
  { apply only_bind; [by apply only_call|]. intros [filtered rejected].
    apply only_bind.
    { apply only_for_each. intros. apply only_bind; [by apply only_call|].
      intros. apply only_ret. }
    intros preprocessed. apply only_bind; [|intros; apply only_ret].
    eapply Forall_impl; [apply evaluate_commits_only_ranks|]. by intros []. }
  unfold only, trace, result in *. simpl in *.
  rewrite twin_lookups_app, (twin_lookups_quiet t2), app_nil_r by done.
  split_and!; [done..|].
  intros r _ id Hid. rewrite (Hval merged eq_refl).
  by rewrite elem_of_elements, elem_of_list_to_set.
Qed.

(** ** Merging dictionaries *)

Lemma dict_get_None {V} (d : dict V) k : k ∉ dict_keys d → dict_get d k = None.
Proof.
  unfold dict_keys. induction d as [|[k' v] d IH]; [done|].
  intros [Hne Hd]%not_elem_of_cons. cbn [dict_get].
  case_decide; [by subst|auto].
Qed.

Lemma dict_get_set {V} (d : dict V) k v k' :
  dict_get (dict_set d k v) k' = if decide (k = k') then Some v else dict_get d k'.
Proof.
  induction d as [|[k0 v0] d IH]; simpl.
  - done.
  - destruct (decide (k0 = k)) as [->|Hne]; simpl.
    + by destruct (decide (k = k')).
    + rewrite IH. by repeat case_decide; simplify_eq.
Qed.

Lemma dict_keys_set {V} (d : dict V) k v :
  dict_keys (dict_set d k v)
  = if decide (k ∈ dict_keys d) then dict_keys d else dict_keys d ++ [k].
Proof.
  unfold dict_keys. induction d as [|[k0 v0] d IH].
  - cbn [dict_set fmap list_fmap]. rewrite decide_False; [done|].
    by intros ?%elem_of_nil.
  - cbn [dict_set]. destruct (decide (k0 = k)) as [->|Hne];
      cbn [fmap list_fmap fst].
    + rewrite decide_True; [done|]. by left.
    + fold (fmap (M:=list) (@fst string V)). rewrite IH.
      destruct (decide (k ∈ d.*1)) as [Hin|Hin].
      * rewrite decide_True; [done|]. by right.
      * rewrite decide_False; [done|]. by intros [?|?]%elem_of_cons.
Qed.

Lemma dict_wf_set {V} (d : dict V) k v : dict_wf d → dict_wf (dict_set d k v).
Proof.
  unfold dict_wf. intros Hwf. rewrite dict_keys_set.
  case_decide; [done|]. apply NoDup_app. split_and!; [done| |apply NoDup_singleton].
  intros k' Hk' ->%list_elem_of_singleton. done.
Qed.

(** X17: the merge [d1 | d2] of the twin lookups keeps the keys unique; a
    key of [d2] gets the value [d2] has for it, any other key keeps the
    value of [d1]; the keys of [d1] stay in front, in their order, and no
    key appears that neither dictionary has. *)
Theorem dict_union_spec {V} (d1 d2 : dict V) :
  dict_wf d1 → dict_wf d2 →
  dict_wf (dict_union d1 d2)
  ∧ (∀ k, dict_get (dict_union d1 d2) k
          = match dict_get d2 k with
            | Some v => Some v
            | None => dict_get d1 k
            end)
  ∧ dict_keys d1 `prefix_of` dict_keys (dict_union d1 d2)
  ∧ (∀ k, k ∈ dict_keys (dict_union d1 d2)
          ↔ k ∈ dict_keys d1 ∨ k ∈ dict_keys d2).
Proof.
  unfold dict_union. intros Hwf1 Hwf2. revert d1 Hwf1.
  induction d2 as [|[k v] d2 IH]; intros d1 Hwf1; simpl.
  - split_and!; [done..| |]; [done|]. intros k. split; [auto|].
    by intros [?|?%elem_of_nil].
  - unfold dict_wf, dict_keys in Hwf2. simpl in Hwf2.
    apply NoDup_cons in Hwf2 as [Hfresh Hwf2].
    destruct (IH Hwf2 (dict_set d1 k v) (dict_wf_set d1 k v Hwf1))
      as (Hwf & Hget & Hpre & Hkeys).
    split_and!.
    + done.
    + intros k'. rewrite Hget, dict_get_set.
      destruct (decide (k = k')) as [<-|Hne]; [|done].
      by rewrite (dict_get_None d2 k).
    + etrans; [|exact Hpre]. rewrite dict_keys_set.
      case_decide; [done|]. by apply prefix_app_r.
    + intros k'. rewrite Hkeys, dict_keys_set. unfold dict_keys. simpl.
      rewrite elem_of_cons.
      case_decide as Hin; [|rewrite elem_of_app, list_elem_of_singleton].
      * split; [tauto|]. intros [?|[->|?]]; tauto.
      * tauto.
Qed.

(** ** Writing to the store *)

(** X19: [save_preprocessed_commits] makes exactly one POST of the whole
    payload to [backend_address + "/commits/"].  It returns normally
    whatever response comes back, of any status code, and also when the
    request raises [ConnectionError]; any other exception comes out. *)
Theorem save_swallows_connection_errors w backend_address payload :
  let url := backend_address +:+ "/commits/" in
  save_preprocessed_commits w backend_address payload
  = ([EvPost url payload],
     match requests_post w url payload with
     | Val _ | Exc ConnectionError => Val ()
     | Exc (Error msg) => Exc (Error msg)
     end).
Proof.
  intros url. subst url.
  unfold save_preprocessed_commits, try_except, call, mbind, M_bind, bind.
  by destruct (requests_post _ _ _) as [r|[|msg]].
Qed.

(** ** Tag aggregation leaves commits intact *)

(** X20: whatever [next_tag] is, tag aggregation returns commits of its
    input in their input order, adds none, and leaves the id, the features
    and the ids of the twin entries of every commit it returns as they
    were. *)
Theorem aggregation_keeps_commits_intact w (commits : list Commit)
    (next_tag : option string) :
  let out := tag_and_aggregate_commits w commits next_tag in
  commit_id <$> out `sublist_of` commit_id <$> commits
  ∧ Forall (λ c', ∃ c, c ∈ commits
                       ∧ commit_id c' = commit_id c
                       ∧ features c' = features c
                       ∧ (twins c').*2 = (twins c).*2) out.
Proof.
  intros out. subst out.
  assert (commit_id <$> commits `sublist_of` commit_id <$> commits
          ∧ Forall (λ c', ∃ c, c ∈ commits
                       ∧ commit_id c' = commit_id c
                       ∧ features c' = features c
                       ∧ (twins c').*2 = (twins c).*2) commits) as Hsame.
  { split; [done|]. apply Forall_forall. intros c Hc. by exists c. }
  destruct next_tag as [next_tag|]; [|done].
  unfold tag_and_aggregate_commits. case_decide; [done|].
  rewrite aggregate_loop_spec. simpl. split.
  - rewrite <-list_fmap_compose.
    erewrite (list_fmap_ext _ commit_id) by (by intros).
    apply fmap_sublist, sublist_filter.
  - apply Forall_fmap, Forall_forall.
    intros c [_ Hc]%list_elem_of_filter. exists c. simpl.
    split_and!; try done.
    rewrite <-list_fmap_compose. by apply list_fmap_ext.
Qed.

End Properties.

(** * The theorems on concrete runs *)

Import Fixtures.

(** The store holds a and c of the candidates a, b, c: b is missing, and
    the payload written afterwards has three records. *)
Lemma persisted_payload_example :
  posted (trace (preprocess_and_rank cache_world (params "1.0:1.1" "always")
                   adv0 abc "v1.1"))
  = [["a"; "c"; "b"]].
Proof.
  destruct (persisted_payload cache_world (params "1.0:1.1" "always") adv0 abc
              "v1.1" [EvGet lookup_abc] ["b"]
              [commit "a" [] []; commit "c" [] []] eq_refl) as [_ Hwritten].
  apply (Hwritten [commit "b" [] []]).
  - repeat constructor.
  - discriminate.
  - discriminate.
  - intros k _. unfold overloaded. simpl. apply andb_false_r.
Defined.

(** C1 as stated fails: with candidates a, b, c and store hits a and c,
    the payload written to the store is not the single record of b; it
    also holds the records of the two cache hits. *)
Lemma cache_hits_are_persisted_again :
  posted (trace (prospector cache_world (params "1.0:1.1" "always")))
    = [["a"; "c"; "b"]]
  ∧ posted (trace (prospector cache_world (params "1.0:1.1" "always")))
    ≠ [["b"]].
Proof. split; [by vm_compute|]. vm_compute. discriminate. Qed.


(** 1001 candidates, none cached, and 201 seconds on the clock when the
    hundredth commit has been normalised. *)
Lemma overload_abort_example :
  result (preprocess_and_rank slow_world (params "1.0:1.1" "never") adv0
            (numbered 1001) "v1.1")
  = Val (Sentinel 1001).
Proof.
  destruct (overload_abort slow_world (params "1.0:1.1" "never") adv0
              (numbered 1001) "v1.1" [] (dict_values (numbered 1001)) [] eq_refl)
    as (Habort & _ & _).
  apply (Habort 100%nat).
  - unfold numbered. rewrite length_fmap, length_seq. lia.
  - unfold numbered, dict_values. rewrite !length_fmap, length_seq. lia.
  - reflexivity.
  - reflexivity.
  - apply Forall_forall. intros raw _. eexists. reflexivity.
Defined.



(** Ceiling 2000, 2001 candidates. *)
Lemma too_many_candidates_example :
  prospector large_world (params "1.0:1.1" "always")
  = (setup ++ [EvGetPossibleTags "1.0:1.1";
               EvCreateCommits None None "v1.1" "v1.0";
               EvFilterCommits (numbered 2001)],
     Val (Sentinel 2001)).
Proof.
  assert (limit_candidates (params "1.0:1.1" "always")
          < Z.of_nat (length (numbered 2001))) as Hmany
    by (unfold numbered; rewrite length_fmap, length_seq; reflexivity).
  assert (¬ ("v1.0" = "" ∧ "v1.1" = "")) as Hres by (intros [[=] _]).
  assert ("1.0:1.1" ≠ "") as Hvi by discriminate.
  destruct (too_many_candidates large_world (params "1.0:1.1" "always") adv0
              all_tags setup [] "v1.0" "v1.1"
              [EvCreateCommits None None "v1.1" "v1.0"] (numbered 2001)
              (numbered 2001) 0%nat eq_refl eq_refl Hvi eq_refl Hres eq_refl
              eq_refl Hmany) as [Hrun _].
  rewrite Hrun. unfold numbered. rewrite length_fmap, length_seq. reflexivity.
Defined.

Lemma unresolved_interval_example :
  prospector cache_world (params "" "always") = (setup, Val (Sentinel (-1)))
  ∧ prospector untagged_world (params "1.0:1.1" "always")
    = (setup ++ [EvGetPossibleTags "1.0:1.1"], Val (Sentinel (-1))).
Proof.
  assert ("1.0:1.1" ≠ "") as Hvi by discriminate.
  split.
  - exact (proj1 (proj1 (unresolved_interval_is_fatal cache_world
                           (params "" "always") adv0 all_tags setup []
                           eq_refl eq_refl) eq_refl)).
  - exact (proj1 (proj2 (unresolved_interval_is_fatal untagged_world
                           (params "1.0:1.1" "always") adv0 all_tags setup []
                           eq_refl eq_refl) Hvi eq_refl)).
Defined.

(** The advisory names abc123; the twin lookup finds abc123 and def456. *)
Lemma twin_short_circuit_example :
  result (prospector twin_world (params "1.0:1.1" "always"))
  = Val (Ranked [commit "abc123" [] []; commit "def456" [] []]
           (set_has_fixing_commit adv1 true)).
Proof.
  assert (∃ c, c ∈ [commit "abc123" [] []; commit "def456" [] []]
               ∧ commit_id c ∈ fixing_commit adv1) as Hmatch.
  { exists (commit "abc123" [] []). split; [left|left]. }
  assert (0 < length (fixing_commit adv1))%nat as Hlen by (simpl; lia).
  destruct (twin_short_circuit_success twin_world (params "1.0:1.1" "always")
              adv1 all_tags setup
              [EvTwinLookup "abc123";
               EvFilterCommits [("abc123", "abc123"); ("def456", "def456")];
               EvMakeFromRawCommit "abc123" true;
               EvMakeFromRawCommit "def456" true;
               EvApplyRules [commit "abc123" [] []; commit "def456" [] []] ["ALL"];
               EvApplyRanking]
              [commit "abc123" [] []; commit "def456" [] []] adv1
              eq_refl Hlen eq_refl eq_refl Hmatch) as [Hrun _].
  by rewrite Hrun.
Defined.

(** The advisory names abc123 and the twin lookup raises: the run goes on
    and ends as the full pipeline ends. *)
Lemma twin_failure_example :
  prospector broken_twin_world (params "1.0:1.1" "always")
  = (setup ++ [EvTwinLookup "abc123"]
       ++ trace (full_pipeline broken_twin_world (params "1.0:1.1" "always")
                   adv1 all_tags),
     result (full_pipeline broken_twin_world (params "1.0:1.1" "always")
               adv1 all_tags)).
Proof.
  assert (0 < length (fixing_commit adv1))%nat as Hlen by (simpl; lia).
  apply (twin_failure_falls_through broken_twin_world (params "1.0:1.1" "always")
           adv1 all_tags setup [EvTwinLookup "abc123"] (Exc (Error "unreachable"))
           eq_refl Hlen eq_refl eq_refl).
  left. by eexists.
Defined.

(** The example of the specification: only C1 carries v1.1. *)
Lemma tag_and_aggregate_commits_example :
  tag_and_aggregate_commits cache_world
    [commit "C1" ["v1.0"; "v1.1"] [("", "C2"); ("", "C7")];
     commit "C2" ["v0.9"] []]
    (Some "v1.1")
  = [commit "C1" ["v1.1"] [("v0.9", "C2"); ("no-tag", "C7")]].
Proof.
  assert ("v1.1" ≠ "") as Hne by discriminate.
  rewrite (proj1 (tag_and_aggregate_commits_spec cache_world
                    [commit "C1" ["v1.0"; "v1.1"] [("", "C2"); ("", "C7")];
                     commit "C2" ["v0.9"] []] "v1.1" Hne)).
  by vm_compute.
Defined.

(** The store holds all of a, b, c: three cache hits and no write. *)
Lemma warm_cache_example :
  posted (trace (preprocess_and_rank warm_world (params "1.0:1.1" "always")
                   adv0 abc "v1.1"))
  = [].
Proof.
  exact (proj1 (store_written_only_after_local_preprocessing warm_world
                  (params "1.0:1.1" "always")) adv0 abc "v1.1" [EvGet lookup_abc]
           [commit "a" [] []; commit "b" [] []; commit "c" [] []] eq_refl).
Defined.


(** * The further properties on concrete runs *)

(** 2001 candidates and a store that answers every lookup: five GETs. *)
Lemma lookups_cover_candidates_example :
  length (trace (retrieve_preprocessed_commits large_world
                   "https://example.org/repo" DEFAULT_BACKEND (numbered 2001)))
  = 5%nat.
Proof.
  destruct (lookups_cover_candidates large_world "https://example.org/repo"
              DEFAULT_BACKEND (numbered 2001)) as (_ & _ & _ & Hall).
  rewrite Hall.
  - by vm_compute.
  - apply Forall_forall. intros b _. eexists. split; reflexivity.
Defined.

(** 1001 candidates in three slices; the second lookup is answered 503. *)
Lemma lookups_stop_at_first_failure_example :
  trace (retrieve_preprocessed_commits flaky_world "https://example.org/repo"
           DEFAULT_BACKEND (numbered 1001))
  = [EvGet (lookup_of (slice 0 (numbered 1001)));
     EvGet (lookup_of (slice 1 (numbered 1001)))].
Proof.
  assert (id_batches (dict_keys (numbered 1001))
          = [slice 0 (numbered 1001)]
              ++ slice 1 (numbered 1001) :: [slice 2 (numbered 1001)]) as Hsplit
    by (by vm_compute).
  assert (Forall (λ b, answered flaky_world
                         (get_url DEFAULT_BACKEND "https://example.org/repo" b))
            [slice 0 (numbered 1001)]) as Hok.
  { repeat constructor. exists (mkResponse 200 ["0"]). split; by vm_compute. }
  assert (¬ answered flaky_world
              (get_url DEFAULT_BACKEND "https://example.org/repo"
                 (slice 1 (numbered 1001)))) as Hbad.
  { intros (r & Hr & Hstatus). vm_compute in Hr. injection Hr as <-.
    discriminate Hstatus. }
  exact (proj1 (lookups_stop_at_first_failure flaky_world
                  "https://example.org/repo" DEFAULT_BACKEND (numbered 1001)
                  _ _ _ Hsplit Hok Hbad)).
Defined.

Lemma cold_store_everything_missing_example :
  ∃ missing,
    retrieve_preprocessed_commits cold_world "https://example.org/repo"
      DEFAULT_BACKEND abc
    = ([EvGet lookup_abc], Val (missing, []))
    ∧ missing ≡ₚ ["a"; "b"; "c"].
Proof.
  assert (abc ≠ []) as Hne by discriminate.
  assert (dict_wf abc) as Hwf by compute_done.
  assert ((404 : Z) ≠ 200) as Hstatus by discriminate.
  exact (cold_store_everything_missing cold_world "https://example.org/repo"
           DEFAULT_BACKEND abc (mkResponse 404 []) Hne Hwf eq_refl Hstatus).
Defined.

Lemma never_mode_leaves_store_alone_example :
  Forall (λ e, is_store_read e = false ∧ is_store_write e = false)
    (trace (prospector cache_world (params "1.0:1.1" "never"))).
Proof.
  exact (never_mode_leaves_store_alone cache_world (params "1.0:1.1" "never")
           eq_refl).
Defined.

Lemma ignored_references_skip_twin_path_example :
  Forall (λ e, is_twin_lookup e = false ∧ is_simplified_preprocessing e = false)
    (trace (prospector twin_world (ignoring (params "1.0:1.1" "always")))).
Proof.
  exact (ignored_references_skip_twin_path twin_world
           (ignoring (params "1.0:1.1" "always")) eq_refl).
Defined.

Lemma sentinel_values_example :
  (2001 : Z) = -1
  ∨ limit_candidates (params "1.0:1.1" "always") < 2001
  ∨ 1000 < 2001 ≤ limit_candidates (params "1.0:1.1" "always").
Proof.
  apply (sentinel_values large_world (params "1.0:1.1" "always") 2001).
  by vm_compute.
Defined.

Lemma exit_example :
  (0 : Z) = 0 ∧ use_backend (params "1.0:1.1" "always") = "always"
  ∧ ∃ t' url,
      trace (prospector unreachable_world (params "1.0:1.1" "always"))
      = t' ++ [EvGet url]
      ∧ requests_get unreachable_world url = Exc ConnectionError.
Proof.
  apply (exit_only_when_required_store_is_unreachable unreachable_world
           (params "1.0:1.1" "always") 0).
  by vm_compute.
Defined.

Lemma returned_advisory_example :
  ∃ t1 adv tags,
    prelude twin_world (params "1.0:1.1" "always") = (t1, Val (adv, tags))
    ∧ (set_has_fixing_commit adv1 true = adv
       ∨ set_has_fixing_commit adv1 true = set_has_fixing_commit adv true
         ∧ ignore_adv_refs (params "1.0:1.1" "always") = false
         ∧ (length [commit "abc123" [] []; commit "def456" [] []] ≤ 100)%nat
         ∧ ∃ c, c ∈ [commit "abc123" [] []; commit "def456" [] []]
                ∧ commit_id c ∈ fixing_commit adv).
Proof.
  apply (returned_advisory twin_world (params "1.0:1.1" "always")).
  by vm_compute.
Defined.

Lemma unreachable_store_on_lookup_example :
  preprocess_and_rank unreachable_world (params "1.0:1.1" "always") adv0 abc "v1.1"
    = ([EvGet lookup_abc], Val (Exited 0))
  ∧ reconcile unreachable_world (params "1.0:1.1" "ifavailable") abc
    = ([EvGet lookup_abc], Val (inr (["a"; "b"; "c"], []))).
Proof.
  assert ("always" ≠ "never") as Hmode by discriminate.
  assert ("ifavailable" ≠ "never") as Hmode' by discriminate.
  assert ("ifavailable" ≠ "always") as Htolerant by discriminate.
  split.
  - exact (proj1 (unreachable_store_on_lookup unreachable_world
                    (params "1.0:1.1" "always") adv0 abc "v1.1" [EvGet lookup_abc]
                    Hmode eq_refl) eq_refl).
  - exact (proj2 (unreachable_store_on_lookup unreachable_world
                    (params "1.0:1.1" "ifavailable") adv0 abc "v1.1"
                    [EvGet lookup_abc] Hmode' eq_refl) Htolerant).
Defined.


Lemma preprocess_commits_never_aborts_example :
  preprocess_commits cache_world (λ _, 1000%Q) ["a"; "b"]
  = ([EvMakeFromRawCommit "a" false; EvMakeFromRawCommit "b" false],
     Val [commit "a" [] []; commit "b" [] []]).
Proof.
  apply (proj1 (preprocess_commits_never_aborts cache_world (λ _, 1000%Q)
                  ["a"; "b"])).
  by repeat constructor.
Defined.

(** The advisory names abc123 twice: one lookup. *)
Lemma each_supplied_id_is_looked_up_once_example :
  NoDup (twin_lookups (trace (prospector_find_twins twin_world adv1
                                (repository_of twin_world (params "" "always"))
                                ["abc123"; "abc123"])))
  ∧ "abc123" ∈ twin_lookups (trace (prospector_find_twins twin_world adv1
                                      (repository_of twin_world (params "" "always"))
                                      ["abc123"; "abc123"])).
Proof.
  destruct (each_supplied_id_is_looked_up_once twin_world adv1
              (repository_of twin_world (params "" "always"))
              ["abc123"; "abc123"]) as (Hnd & _ & Hall).
  split; [exact Hnd|].
  eapply Hall; [by vm_compute|left].
Defined.

Lemma dict_union_example :
  dict_wf (dict_union first_found then_found)
  ∧ dict_get (dict_union first_found then_found) "b" = Some "b2"
  ∧ dict_get (dict_union first_found then_found) "a" = Some "a1".
Proof.
  assert (dict_wf first_found) as Hwf1 by compute_done.
  assert (dict_wf then_found) as Hwf2 by compute_done.
  destruct (dict_union_spec first_found then_found Hwf1 Hwf2)
    as (Hwf & Hget & _).
  split_and!; [exact Hwf|apply Hget..].
Defined.

(** Three candidates under a ceiling of three: the run goes on. *)
Lemma prospector_last_stage_example :
  prospector cache_world (limited 3 (params "1.0:1.1" "always"))
  = (setup ++ [] ++ EvGetPossibleTags "1.0:1.1"
       :: [EvCreateCommits None None "v1.1" "v1.0"]
       ++ [EvFilterCommits abc]
       ++ trace (preprocess_and_rank cache_world
                   (limited 3 (params "1.0:1.1" "always")) adv0 abc "v1.1"),
     result (preprocess_and_rank cache_world
               (limited 3 (params "1.0:1.1" "always")) adv0 abc "v1.1")).
Proof.
  assert ("1.0:1.1" ≠ "") as Hvi by discriminate.
  assert (¬ ("v1.0" = "" ∧ "v1.1" = "")) as Hres by (intros [[=] _]).
  assert (Z.of_nat (length abc) ≤ 3) as Hfew by (simpl; lia).
  exact (prospector_last_stage cache_world (limited 3 (params "1.0:1.1" "always"))
           adv0 all_tags setup [] "v1.0" "v1.1"
           [EvCreateCommits None None "v1.1" "v1.0"] abc abc 0%nat
           eq_refl eq_refl Hvi eq_refl Hres eq_refl eq_refl Hfew).
Defined.
